(** * Twickets ticket monitor: a model of [ticket_monitor_action.py]

    The script is one linear procedure: read the persisted state, fetch
    the event page, classify its text, notify on a rising edge, persist
    the new state.  This development embeds it in Rocq as a program in a
    small state-and-exception monad over an explicit [world] (process
    environment, file system, remote endpoints) and proves the properties
    its specification states about it.

    Conventions.
    - A Python [str] is the list of its code points ([list N]).
    - A value of type [Optional[str]] is an [option] of that.
    - Values whose type is only known at run time (what [json.load]
      returns) are [pyval]s.
    - Every function of the script keeps its name. *)

From Stdlib Require Import ZArith NArith List Ascii String Lia Bool.
From Stdlib Require Import SpecFloat.
From stdpp Require Import gmap.
Import ListNotations.

Set Default Proof Using "Type".
#[local] Set Warnings "-register-all".

(** ** Python strings *)

Abbreviation str := (list N).

(** The code points of an ASCII literal. *)
Definition lit (s : string) : str :=
  map N_of_ascii (list_ascii_of_string s).

(** [a == b] on strings. *)
Definition str_eqb (a b : str) : bool := bool_decide (a = b).

(** [s.startswith(p)]. *)
Fixpoint startswith (p s : str) : bool :=
  match p, s with
  | [], _ => true
  | _ :: _, [] => false
  | a :: p', b :: s' => (a =? b)%N && startswith p' s'
  end.

(** [p in s]: [p] occurs in [s] as a contiguous run of characters. *)
Fixpoint str_in (p s : str) : bool :=
  startswith p s ||
  match s with
  | [] => false
  | _ :: s' => str_in p s'
  end.

(** [s.split(sep)] for a one-character separator: the pieces between the
    occurrences of [sep], empty pieces included. *)
Fixpoint split_on (sep : N) (s : str) : list str :=
  match s with
  | [] => [[]]
  | c :: s' =>
      if (c =? sep)%N then [] :: split_on sep s'
      else match split_on sep s' with
           | [] => [[c]]
           | piece :: pieces => (c :: piece) :: pieces
           end
  end.

(** ASCII lowercasing: what [str.lower] does on ASCII text.  Outside
    ASCII [str.lower] follows the Unicode case tables of the interpreter,
    which is why [check_tickets] below takes the lowering function as a
    parameter; this instance serves to run the model on ASCII pages. *)
Definition ascii_lower_char (c : N) : N :=
  if ((65 <=? c) && (c <=? 90))%N then (c + 32)%N else c.

Definition ascii_lower (s : str) : str := map ascii_lower_char s.

(** ** Character classes *)

Definition is_digit (c : N) : bool := ((48 <=? c) && (c <=? 57))%N.

Definition digit_val (c : N) : Z := Z.of_N c - 48.

(** The white space [int] accepts around a number: the ASCII characters
    space, tab, line feed, vertical tab, form feed and carriage return,
    and the white space of the Unicode database beyond ASCII.  (The
    separators U+001C to U+001F are white space for [str.isspace] but not
    for [int].) *)
Definition is_space (c : N) : bool :=
  (((9 <=? c) && (c <=? 13)) || (c =? 32)
   || (c =? 133) || (c =? 160) || (c =? 5760)
   || ((8192 <=? c) && (c <=? 8202))
   || (c =? 8232) || (c =? 8233) || (c =? 8239) || (c =? 8287)
   || (c =? 12288))%N.

(** ** Exceptions

    Every exception of the model is an instance of a subclass of
    [Exception], so [except Exception] catches each of them.  Signals
    that derive from [BaseException] only ([KeyboardInterrupt] and the
    like) are outside the model, except [SystemExit], which is a result
    of its own (see [result]). *)
Inductive exn : Type :=
| ValueError          (* int() of a malformed literal *)
| JSONDecodeError     (* json.load of malformed text; a ValueError *)
| AttributeError      (* method call on an object that lacks it *)
| FileNotFoundError
| LibraryError (name : str).  (* raised by the outside world: OSError, requests', smtplib's ... *)

(** ** [int(s)]

    Base-10 conversion of a string: optional surrounding white space, an
    optional sign, then digits, where single underscores may separate
    digits.  Returns [None] where Python raises [ValueError].  Only the
    ASCII digits are recognised: CPython also reads the decimal digits of
    other scripts, which the model refuses.  The interpreter's limit on
    the number of digits is not modelled. *)
Fixpoint scan_digits (acc : Z) (s : str) : Z * str :=
  match s with
  | c :: rest =>
      if is_digit c then scan_digits (10 * acc + digit_val c) rest
      else if (c =? 95)%N then
        match rest with
        | d :: rest' =>
            if is_digit d then scan_digits (10 * acc + digit_val d) rest'
            else (acc, s)
        | [] => (acc, s)
        end
      else (acc, s)
  | [] => (acc, [])
  end.

Fixpoint lstrip (s : str) : str :=
  match s with
  | c :: s' => if is_space c then lstrip s' else s
  | [] => []
  end.

Definition unsigned_int (s : str) : option Z :=
  match s with
  | c :: _ =>
      if is_digit c then
        let '(n, rest) := scan_digits 0 s in
        if forallb is_space rest then Some n else None
      else None
  | [] => None
  end.

Definition py_int (s : str) : option Z :=
  match lstrip s with
  | c :: s' =>
      if (c =? 45)%N then Z.opp <$> unsigned_int s'
      else if (c =? 43)%N then unsigned_int s'
      else unsigned_int (c :: s')
  | [] => None
  end.

(** ** Dynamically typed values

    The values [json.load] can return: [None], [bool], [int], [float]
    (IEEE 754 binary64, as [spec_float]), [str], [list] and [dict].  A
    dict keeps its items in insertion order with unique keys. *)
Inductive pyval : Type :=
| PNone
| PBool (b : bool)
| PInt (n : Z)
| PFloat (f : spec_float)
| PStr (s : str)
| PList (items : list pyval)
| PDict (items : list (str * pyval)).

(** Truth value testing ([bool(v)], [not v], [v or w], [if v]). *)
Definition truthy (v : pyval) : bool :=
  match v with
  | PNone => false
  | PBool b => b
  | PInt n => negb (n =? 0)%Z
  | PFloat (S754_zero _) => false
  | PFloat _ => true
  | PStr [] => false
  | PStr (_ :: _) => true
  | PList [] => false
  | PList (_ :: _) => true
  | PDict [] => false
  | PDict (_ :: _) => true
  end.

(** [v or w]. *)
Definition py_or (v w : pyval) : pyval := if truthy v then v else w.

(** Truth value of an [Optional[str]]: [None] and the empty string are
    false. *)
Definition opt_truthy (o : option str) : bool :=
  match o with
  | Some (_ :: _) => true
  | _ => false
  end.

(** [d[k]] lookup on the items of a dict. *)
Fixpoint dict_lookup (k : str) (d : list (str * pyval)) : option pyval :=
  match d with
  | [] => None
  | (k', v) :: d' => if str_eqb k' k then Some v else dict_lookup k d'
  end.

(** [d[k] = v]: an existing key keeps its position and takes the new
    value, a new key goes to the end. *)
Fixpoint dict_set (d : list (str * pyval)) (k : str) (v : pyval)
  : list (str * pyval) :=
  match d with
  | [] => [(k, v)]
  | (k', v') :: d' =>
      if str_eqb k' k then (k', v) :: d' else (k', v') :: dict_set d' k v
  end.

(** [obj.get(k)]: the dict method, with its default [None]; any other
    value of the model has no attribute [get]. *)
Definition py_get (obj : pyval) (k : str) : exn + pyval :=
  match obj with
  | PDict d => inr (default PNone (dict_lookup k d))
  | _ => inl AttributeError
  end.

(** ** [json.load]

    The decoder of the standard library, on the text of the file:
    [scan_once] with its helpers for strings, numbers, arrays and objects,
    then the check that only white space follows the value. *)

(** Result of a scanner on a text: the value and the text after it, a
    malformed text (Python raises [JSONDecodeError]), or recursion that
    went deeper than the budget [fuel] allows. *)
Inductive parse (A : Type) : Type :=
| Parsed (a : A) (rest : str)
| Malformed
| Exhausted.
Arguments Parsed {A} a rest.
Arguments Malformed {A}.
Arguments Exhausted {A}.

(** JSON white space: space, tab, line feed, carriage return. *)
Definition is_json_ws (c : N) : bool :=
  ((c =? 32) || (c =? 9) || (c =? 10) || (c =? 13))%N.

Fixpoint skip_ws (s : str) : str :=
  match s with
  | c :: s' => if is_json_ws c then skip_ws s' else s
  | [] => []
  end.

(** The text after the character [c], when the text starts with it. *)
Definition expect (c : N) (s : str) : option str :=
  match s with
  | x :: s' => if (x =? c)%N then Some s' else None
  | [] => None
  end.

Definition hex_val (c : N) : option N :=
  if is_digit c then Some (c - 48)%N
  else if ((97 <=? c) && (c <=? 102))%N then Some (c - 87)%N
  else if ((65 <=? c) && (c <=? 70))%N then Some (c - 55)%N
  else None.

(** Four hexadecimal digits at the head of the text. *)
Definition hex4 (s : str) : option (N * str) :=
  match s with
  | a :: b :: c :: d :: rest =>
      match hex_val a, hex_val b, hex_val c, hex_val d with
      | Some a, Some b, Some c, Some d =>
          Some (((a * 16 + b) * 16 + c) * 16 + d, rest)%N
      | _, _, _, _ => None
      end
  | _ => None
  end.

Definition is_high_surrogate (c : N) : bool := ((55296 <=? c) && (c <=? 56319))%N.
Definition is_low_surrogate (c : N) : bool := ((56320 <=? c) && (c <=? 57343))%N.

(** The character a one-letter escape stands for. *)
Definition simple_escape (c : N) : option N :=
  if (c =? 34)%N then Some 34%N          (* quotation mark *)
  else if (c =? 92)%N then Some 92%N     (* backslash *)
  else if (c =? 47)%N then Some 47%N     (* slash *)
  else if (c =? 98)%N then Some 8%N      (* b *)
  else if (c =? 102)%N then Some 12%N    (* f *)
  else if (c =? 110)%N then Some 10%N    (* n *)
  else if (c =? 114)%N then Some 13%N    (* r *)
  else if (c =? 116)%N then Some 9%N     (* t *)
  else None.

(** [scanstring], strict mode: the text is what follows the opening
    quotation mark; the result is the decoded string and the text after
    the closing quotation mark.  Control characters are refused; a high
    surrogate escape directly followed by a low surrogate escape gives
    one character. *)
Fixpoint scanstring (s : str) : option (str * str) :=
  match s with
  | [] => None
  | c :: rest =>
      if (c =? 34)%N then Some ([], rest)
      else if (c <? 32)%N then None
      else if (c =? 92)%N then
        match rest with
        | [] => None
        | e :: rest1 =>
            if (e =? 117)%N then
              match rest1 with
              | h1 :: h2 :: h3 :: h4 :: rest2 =>
                  match hex4 [h1; h2; h3; h4] with
                  | None => None
                  | Some (u, _) =>
                      let single :=
                        '(x, r) ← scanstring rest2; Some (u :: x, r) in
                      if is_high_surrogate u then
                        match rest2 with
                        | b :: w :: l1 :: l2 :: l3 :: l4 :: rest3 =>
                            if ((b =? 92) && (w =? 117))%N then
                              match hex4 [l1; l2; l3; l4] with
                              | None => None
                              | Some (u2, _) =>
                                  if is_low_surrogate u2 then
                                    '(x, r) ← scanstring rest3;
                                    Some ((65536 + (u - 55296) * 1024
                                           + (u2 - 56320))%N :: x, r)
                                  else single
                              end
                            else single
                        | _ => single
                        end
                      else single
                  end
              | _ => None
              end
            else
              match simple_escape e with
              | None => None
              | Some x =>
                  '(y, r) ← scanstring rest1; Some (x :: y, r)
              end
        end
      else
        '(x, r) ← scanstring rest; Some (c :: x, r)
  end.

(** *** Numbers *)

(** The longest run of digits at the head of the text. *)
Fixpoint take_digits (s : str) : str * str :=
  match s with
  | c :: s' =>
      if is_digit c then let '(ds, r) := take_digits s' in (c :: ds, r)
      else ([], s)
  | [] => ([], [])
  end.

(** The number a run of digits denotes. *)
Definition digits_val (ds : str) : Z :=
  fold_left (fun acc c => 10 * acc + digit_val c)%Z ds 0%Z.

(** [float] of a decimal literal: the binary64 number nearest to
    [m * 10 ^ e] (ties to even), with the sign [neg]; [m] is not
    negative.  For a negative exponent the quotient is computed with
    enough extra bits that its remainder decides the rounding. *)
Definition float_of_decimal (neg : bool) (m e : Z) : spec_float :=
  if (m <=? 0)%Z then S754_zero neg
  else if (0 <=? e)%Z then
    binary_normalize 53 1024 (cond_Zopp neg (m * 10 ^ e)) 0 neg
  else
    let d := (10 ^ (- e))%Z in
    let k := (1100 + Z.log2_up d)%Z in
    let n := (m * 2 ^ k)%Z in
    let r := (n mod d)%Z in
    let loc := if (r =? 0)%Z then loc_Exact else loc_Inexact (2 * r ?= d)%Z in
    binary_round_aux 53 1024 neg (n / d) (- k) loc.

(** The fraction of a number: a full stop followed by at least one digit. *)
Definition match_frac (s : str) : option str * str :=
  match s with
  | p :: d :: _ =>
      if ((p =? 46) && is_digit d)%N then
        let '(ds, r) := take_digits (tail s) in (Some ds, r)
      else (None, s)
  | _ => (None, s)
  end.

(** The exponent of a number: [e] or [E], an optional sign, at least one
    digit. *)
Definition match_exp (s : str) : option Z * str :=
  match s with
  | e :: s1 =>
      if ((e =? 101) || (e =? 69))%N then
        let '(eneg, s2) :=
          match s1 with
          | sg :: s2 =>
              if (sg =? 45)%N then (true, s2)
              else if (sg =? 43)%N then (false, s2)
              else (false, s1)
          | [] => (false, s1)
          end in
        match take_digits s2 with
        | ([], _) => (None, s)
        | (ds, r) => (Some (cond_Zopp eneg (digits_val ds)), r)
        end
      else (None, s)
  | [] => (None, s)
  end.

(** The integer part: a single [0], or a digit from 1 to 9 followed by
    digits. *)
Definition match_int (s : str) : option (str * str) :=
  match s with
  | c :: s' =>
      if (c =? 48)%N then Some ([c], s')
      else if is_digit c then Some (take_digits s)
      else None
  | [] => None
  end.

(** A number at the head of the text: an [int] when it has neither
    fraction nor exponent, a [float] otherwise. *)
Definition match_number (s : str) : parse pyval :=
  let '(neg, s0) :=
    match s with
    | c :: s' => if (c =? 45)%N then (true, s') else (false, s)
    | [] => (false, s)
    end in
  match match_int s0 with
  | None => Malformed
  | Some (ip, s1) =>
      let '(frac, s2) := match_frac s1 in
      let '(ex, s3) := match_exp s2 in
      match frac, ex with
      | None, None => Parsed (PInt (cond_Zopp neg (digits_val ip))) s3
      | _, _ =>
          let fr := default [] frac in
          Parsed (PFloat (float_of_decimal neg (digits_val (ip ++ fr))
                            (default 0%Z ex - Z.of_nat (length fr)))) s3
      end
  end.

(** *** Values *)

(** [scan_once]: one JSON value at the head of the text.
    [object_members] reads the members of an object from the quotation
    mark that opens a key, [array_items] the items of an array from the
    first character of an item; both carry what they have read so far. *)
Fixpoint scan_once (fuel : nat) (s : str) : parse pyval :=
  match fuel with
  | O => Exhausted
  | S fuel' =>
      match s with
      | [] => Malformed
      | c :: rest =>
          if (c =? 34)%N then
            match scanstring rest with
            | Some (x, r) => Parsed (PStr x) r
            | None => Malformed
            end
          else if (c =? 123)%N then
            match expect 125 (skip_ws rest) with
            | Some r => Parsed (PDict []) r
            | None => object_members fuel' [] (skip_ws rest)
            end
          else if (c =? 91)%N then
            match expect 93 (skip_ws rest) with
            | Some r => Parsed (PList []) r
            | None => array_items fuel' [] (skip_ws rest)
            end
          else if startswith (lit "null") s then Parsed PNone (drop 4 s)
          else if startswith (lit "true") s then Parsed (PBool true) (drop 4 s)
          else if startswith (lit "false") s then Parsed (PBool false) (drop 5 s)
          else if startswith (lit "NaN") s then Parsed (PFloat S754_nan) (drop 3 s)
          else if startswith (lit "Infinity") s then
            Parsed (PFloat (S754_infinity false)) (drop 8 s)
          else if startswith (lit "-Infinity") s then
            Parsed (PFloat (S754_infinity true)) (drop 9 s)
          else match_number s
      end
  end
with object_members (fuel : nat) (acc : list (str * pyval)) (s : str)
  : parse pyval :=
  match fuel with
  | O => Exhausted
  | S fuel' =>
      match expect 34 s with
      | None => Malformed
      | Some s1 =>
          match scanstring s1 with
          | None => Malformed
          | Some (key, s2) =>
              match expect 58 (skip_ws s2) with
              | None => Malformed
              | Some s3 =>
                  match scan_once fuel' (skip_ws s3) with
                  | Parsed v s4 =>
                      let acc' := dict_set acc key v in
                      match skip_ws s4 with
                      | c :: s5 =>
                          if (c =? 125)%N then Parsed (PDict acc') s5
                          else if (c =? 44)%N then
                            object_members fuel' acc' (skip_ws s5)
                          else Malformed
                      | [] => Malformed
                      end
                  | Malformed => Malformed
                  | Exhausted => Exhausted
                  end
              end
          end
      end
  end
with array_items (fuel : nat) (acc : list pyval) (s : str) : parse pyval :=
  match fuel with
  | O => Exhausted
  | S fuel' =>
      match scan_once fuel' s with
      | Parsed v s1 =>
          match skip_ws s1 with
          | c :: s2 =>
              if (c =? 93)%N then Parsed (PList (acc ++ [v])) s2
              else if (c =? 44)%N then
                array_items fuel' (acc ++ [v]) (skip_ws s2)
              else Malformed
          | [] => Malformed
          end
      | Malformed => Malformed
      | Exhausted => Exhausted
      end
  end.

(** [json.loads(text)]: white space, one value, white space, end of
    text.  [None] stands for [JSONDecodeError].  The budget is twice the
    length of the text, which the recursion never uses up ([scan_fuel]
    below).  The limits of the interpreter are not modelled: CPython
    bounds the nesting by its recursion limit and the length of an
    integer by its digit limit, and raises [RecursionError] or
    [ValueError], both caught like [JSONDecodeError], beyond them. *)
Definition json_loads (text : str) : option pyval :=
  let s := skip_ws text in
  match scan_once (S (2 * length s)) s with
  | Parsed v rest =>
      match skip_ws rest with
      | [] => Some v
      | _ :: _ => None
      end
  | Malformed => None
  | Exhausted => None
  end.

(** Writing JSON texts in examples: the apostrophes of the literal stand
    for quotation marks. *)
Definition jlit (s : string) : str :=
  map (fun c => if (c =? 39)%N then 34%N else c) (lit s).

(** ** The outside world and the effects of a run *)

(** A path of the file system that exists: a text file (its content
    decoded as UTF-8, which is how the script opens it), or something
    that [open] or [read] refuses (a directory, a file without read
    permission, bytes that are not UTF-8). *)
Inductive fnode : Type :=
| FText (text : str)
| FUnreadable (e : exn).

(** What [requests.get] gives back. *)
Record response : Type := Response { status_code : Z; text : str }.

Inductive get_outcome : Type :=
| GetRaises (e : exn)
| GetReturns (r : response).

(** What [requests.post] gives back: an exception, or a response whose
    [json()] method raises or returns a value. *)
Inductive post_outcome : Type :=
| PostRaises (e : exn)
| PostReturns (json : exn + pyval).

(** The calls of an SMTP session, in the order [send_email] makes them. *)
Inductive smtp_step : Type :=
| SmtpConnect | SmtpStartTls | SmtpLogin | SmtpSendmail | SmtpQuit.

(** The MIME message [send_email] builds.  Building it (the headers and
    the text part) is taken not to raise. *)
Record message : Type := Message {
  msg_from : option str;
  msg_to : option str;
  msg_subject : str;
  msg_payload : str
}.

(** The lines [log] prints, by content; the text of each is the one in
    the script with the prefix [[ticket_monitor]]. *)
Inductive logmsg : Type :=
| LogEmailIncomplete
| LogEmailSent
| LogEmailFailed (e : exn)
| LogSmsSent
| LogSmsFailed (data : pyval)
| LogSmsError (e : exn)
| LogStatusCode (code : Z)
| LogFetchError (e : exn)
| LogReadFailed (e : exn)
| LogWriteFailed (e : exn)
| LogUrlUnset
| LogTicketsAvailable (has_tickets : bool).

(** What a run does, in order.  [EvSendEmail] and [EvSendSms] mark the
    calls of the two notification channels, with their arguments; the
    other events are the calls that leave the process.  An event records
    that a call is made, whatever comes of it. *)
Inductive event : Type :=
| EvLog (m : logmsg)
| EvRead (path : str)                  (* open(path, "r") and read *)
| EvWrite (path : str) (text : str)    (* open(path, "w") and write *)
| EvGet (url : str)                    (* requests.get *)
| EvSendEmail (subject body : str)     (* send_email called *)
| EvSmtpConnect (host : option str) (port : Z)
| EvSmtpStartTls
| EvSmtpLogin (username password : option str)
| EvSmtpSendmail (from_addr : option str) (to_addrs : list str) (msg : message)
| EvSmtpQuit
| EvSendSms (body : str)               (* send_sms called *)
| EvPost (url phone body key : str).   (* requests.post *)

(** The world a run starts in, and what the run has done so far.
    - [environ]: the environment variables of the process;
    - [files]: the paths that exist;
    - [write_fault]: the paths where opening for writing fails, with the
      error; a write that starts succeeds;
    - [requests_get], [requests_post], [smtp_fault]: how the remote
      endpoints answer; [smtp_fault step] is the exception the SMTP call
      [step] raises, if any;
    - [trace]: the events so far, oldest first. *)
Record world : Type := World {
  environ : gmap str str;
  files : gmap str fnode;
  write_fault : str → option exn;
  requests_get : str → get_outcome;
  requests_post : post_outcome;
  smtp_fault : smtp_step → option exn;
  trace : list event
}.

Definition set_files (fs : gmap str fnode) (w : world) : world :=
  World (environ w) fs (write_fault w) (requests_get w) (requests_post w)
        (smtp_fault w) (trace w).

Definition set_trace (t : list event) (w : world) : world :=
  World (environ w) (files w) (write_fault w) (requests_get w)
        (requests_post w) (smtp_fault w) t.

(** ** The monad of the script

    A computation takes the world and gives a result with the world
    after it: a value, an exception in flight, or [SystemExit]. *)
Inductive result (A : Type) : Type :=
| Ok (a : A)
| Raise (e : exn)
| SystemExit (code : Z).
Arguments Ok {A} a.
Arguments Raise {A} e.
Arguments SystemExit {A} code.

Definition M (A : Type) : Type := world → result A * world.

#[export] Instance M_ret : MRet M := λ A a w, (Ok a, w).

#[export] Instance M_bind : MBind M := λ A B f m w,
  match m w with
  | (Ok a, w') => f a w'
  | (Raise e, w') => (Raise e, w')
  | (SystemExit c, w') => (SystemExit c, w')
  end.

Definition raise {A} (e : exn) : M A := λ w, (Raise e, w).

(** [sys.exit(code)]. *)
Definition sys_exit {A} (code : Z) : M A := λ w, (SystemExit code, w).

(** [try: body  except Exception as e: handler(e)].  [SystemExit] is not
    an [Exception] and goes through. *)
Definition try_except {A} (body : M A) (handler : exn → M A) : M A := λ w,
  match body w with
  | (Raise e, w') => handler e w'
  | r => r
  end.

(** An outcome the world decides: [inl e] raises, [inr a] returns. *)
Definition lift_sum {A} (r : exn + A) : M A :=
  match r with
  | inl e => raise e
  | inr a => mret a
  end.

Definition emit (e : event) : M unit := λ w,
  (Ok tt, set_trace (trace w ++ [e]) w).

(** A result that depends on the world and leaves it as it is. *)
Definition answer {A} (f : world → result A) : M A := λ w, (f w, w).

(** The exit status of the process for the result of [main]: 0 when it
    returns, the code of [sys.exit], 1 after an uncaught exception (the
    interpreter prints the traceback). *)
Definition exit_status {A} (r : result A) : Z :=
  match r with
  | Ok _ => 0
  | Raise _ => 1
  | SystemExit c => c
  end.

(** ** Library calls *)

(** [os.environ.get(key, default)] with a default of type
    [Optional[str]] ([None] when the script gives none). *)
Definition environ_get (key : string) (dflt : option str) : M (option str) :=
  answer (λ w, Ok (match environ w !! lit key with
                   | Some v => Some v
                   | None => dflt
                   end)).

(** [os.environ.get(key, default)] with a string default. *)
Definition environ_get_str (key : string) (dflt : string) : M str :=
  answer (λ w, Ok (default (lit dflt) (environ w !! lit key))).

(** [int(s)] as a statement: [ValueError] on a malformed literal. *)
Definition int_of_str (s : str) : M Z :=
  match py_int s with
  | Some n => mret n
  | None => raise ValueError
  end.

(** [os.path.exists(path)]. *)
Definition os_path_exists (path : str) : M bool :=
  answer (λ w, Ok (bool_decide (is_Some (files w !! path)))).

(** [with open(path, "r", encoding="utf-8") as f: f.read()]. *)
Definition read_text (path : str) : M str :=
  emit (EvRead path);;
  answer (λ w, match files w !! path with
               | Some (FText t) => Ok t
               | Some (FUnreadable e) => Raise e
               | None => Raise FileNotFoundError
               end).

(** [with open(path, "w", encoding="utf-8") as f: f.write(text)]: the
    file is created or replaced. *)
Definition write_text (path : str) (text : str) : M unit :=
  emit (EvWrite path text);;
  fault ← answer (λ w, Ok (write_fault w path));
  match fault with
  | Some e => raise e
  | None => λ w, (Ok tt, set_files (<[path := FText text]> (files w)) w)
  end.

(** [json.load(f)] on the text read from [f]. *)
Definition json_load (text : str) : M pyval :=
  match json_loads text with
  | Some v => mret v
  | None => raise JSONDecodeError
  end.

(** [requests.get(url, headers=..., timeout=30)]. *)
Definition http_get (url : str) : M response :=
  emit (EvGet url);;
  answer (λ w, match requests_get w url with
               | GetRaises e => Raise e
               | GetReturns r => Ok r
               end).

(** [requests.post(url, data={"phone": .., "message": .., "key": ..},
    timeout=15)], giving the outcome of [json()] on the response. *)
Definition http_post (url phone body key : str) : M (exn + pyval) :=
  emit (EvPost url phone body key);;
  answer (λ w, match requests_post w with
               | PostRaises e => Raise e
               | PostReturns j => Ok j
               end).

(** One call of the SMTP session. *)
Definition smtp_call (step : smtp_step) (ev : event) : M unit :=
  emit ev;;
  answer (λ w, match smtp_fault w step with
               | Some e => Raise e
               | None => Ok tt
               end).

(** [to_addrs.split(",")] on an [Optional[str]]. *)
Definition split_commas (to_addrs : option str) : M (list str) :=
  match to_addrs with
  | Some s => mret (split_on 44 s)
  | None => raise AttributeError
  end.

(** ** The persisted state

    The dict [{"has_tickets": has_tickets}], the only one the script
    passes to [save_state], and the text [json.dump] writes for it. *)
Record state : Type := State { has_tickets : bool }.

Definition json_dump (st : state) : str :=
  lit "{" ++ [34%N] ++ lit "has_tickets" ++ [34%N] ++ lit ": "
  ++ lit (if has_tickets st then "true" else "false") ++ lit "}".

(** The same dict as a value. *)
Definition state_dict (st : state) : pyval :=
  PDict [(lit "has_tickets", PBool (has_tickets st))].

(** ** The script *)

(** [log(msg)]: one line on standard output; printing is taken not to
    fail. *)
Definition log (m : logmsg) : M unit := emit (EvLog m).

Definition send_email (subject body : str) : M unit :=
  emit (EvSendEmail subject body);;
  smtp_server ← environ_get "SMTP_SERVER" None;
  port ← environ_get_str "SMTP_PORT" "587";
  smtp_port ← int_of_str port;
  username ← environ_get "SMTP_USERNAME" None;
  password ← environ_get "SMTP_PASSWORD" None;
  from_addr ← environ_get "EMAIL_FROM" username;
  to_addrs ← environ_get "EMAIL_TO" None;
  if negb (forallb opt_truthy [smtp_server; username; password; to_addrs])
  then log LogEmailIncomplete
  else
    let msg := Message from_addr to_addrs subject body in
    try_except
      (smtp_call SmtpConnect (EvSmtpConnect smtp_server smtp_port);;
       smtp_call SmtpStartTls EvSmtpStartTls;;
       smtp_call SmtpLogin (EvSmtpLogin username password);;
       recipients ← split_commas to_addrs;
       smtp_call SmtpSendmail (EvSmtpSendmail from_addr recipients msg);;
       smtp_call SmtpQuit EvSmtpQuit;;
       log LogEmailSent)
      (λ e, log (LogEmailFailed e)).

Definition send_sms (body : str) : M unit :=
  emit (EvSendSms body);;
  phone ← environ_get "SMS_PHONE" None;
  match phone with
  | None | Some [] => mret tt
  | Some phone =>
      key ← environ_get_str "TEXTBELT_KEY" "textbelt";
      try_except
        (resp ← http_post (lit "https://textbelt.com/text") phone body key;
         data ← lift_sum resp;
         success ← lift_sum (py_get data (lit "success"));
         if truthy success then log LogSmsSent
         else log (LogSmsFailed data))
        (λ e, log (LogSmsError e))
  end.

Definition no_phrases : list str :=
  [ lit "sorry, we don't currently have any tickets";
    lit "no results found";
    lit "alerts not currently available" ].

(** The loop of [check_tickets]: [False] at the first phrase found in
    the page, [True] when the phrases are exhausted. *)
Fixpoint scan_phrases (html : str) (phrases : list str) : bool :=
  match phrases with
  | [] => true
  | phrase :: phrases' =>
      if str_in phrase html then false else scan_phrases html phrases'
  end.

Definition load_state (path : str) : M pyval :=
  exists_ ← os_path_exists path;
  if negb exists_ then mret PNone
  else
    try_except
      (text ← read_text path; json_load text)
      (λ e, log (LogReadFailed e);; mret PNone).

Definition save_state (path : str) (st : state) : M unit :=
  try_except
    (write_text path (json_dump st))
    (λ e, log (LogWriteFailed e)).

Definition alert_subject : str := lit "Twickets Alert: Tickets Available!".

Definition alert_body (event_url : str) : str :=
  lit "Tickets are now available for your event!" ++ [10%N]
  ++ lit "Event URL: " ++ event_url ++ [10%N; 10%N]
  ++ lit "Please visit the page quickly to purchase them." ++ [10%N]
  ++ lit "This is an automated notification.".

Section Script.

(** [str.lower], from the Unicode tables of the interpreter. *)
Variable str_lower : str → str.

Definition check_tickets (url : str) : M bool :=
  try_except
    (response ← http_get url;
     if negb (status_code response =? 200)%Z then
       log (LogStatusCode (status_code response));;
       mret false
     else
       let html := str_lower (text response) in
       mret (scan_phrases html no_phrases))
    (λ e, log (LogFetchError e);; mret false).

Definition main : M unit :=
  event_url ← environ_get "EVENT_URL" None;
  match event_url with
  | None | Some [] =>
      log LogUrlUnset;;
      sys_exit 1
  | Some event_url =>
      state_file ← environ_get_str "STATE_FILE" "state.json";
      loaded ← load_state state_file;
      let state := py_or loaded (PDict []) in
      last_status ← lift_sum (py_get state (lit "has_tickets"));
      has_tickets ← check_tickets event_url;
      log (LogTicketsAvailable has_tickets);;
      (if has_tickets && negb (truthy last_status) then
         send_email alert_subject (alert_body event_url);;
         send_sms (alert_body event_url)
       else mret tt);;
      save_state state_file (State has_tickets)
  end.

End Script.

(** ** What a run does, function by function

    Closed descriptions of the results and events of the functions
    above, in terms of the world they start in; the lemmas of the next
    part prove that the functions compute exactly these. *)

(** The world [w] after the further events [evs]. *)
Definition after (w : world) (evs : list event) : world :=
  set_trace (trace w ++ evs) w.

(** The path of the state file. *)
Definition state_path (w : world) : str :=
  default (lit "state.json") (environ w !! lit "STATE_FILE").

(** The text of [SMTP_PORT], with its default. *)
Definition smtp_port_text (w : world) : str :=
  default (lit "587") (environ w !! lit "SMTP_PORT").

(** What [load_state] returns. *)
Definition stored (w : world) (path : str) : pyval :=
  match files w !! path with
  | Some (FText t) => default PNone (json_loads t)
  | _ => PNone
  end.

Definition load_events (w : world) (path : str) : list event :=
  match files w !! path with
  | None => []
  | Some (FText t) =>
      EvRead path ::
      match json_loads t with
      | Some _ => []
      | None => [EvLog (LogReadFailed JSONDecodeError)]
      end
  | Some (FUnreadable e) => [EvRead path; EvLog (LogReadFailed e)]
  end.

(** [state.get("has_tickets")] for [state = loaded or {}]. *)
Definition last_status_of (loaded : pyval) : exn + pyval :=
  py_get (py_or loaded (PDict [])) (lit "has_tickets").

(** The events of [save_state], and the world after it. *)
Definition save_events (w : world) (path : str) (st : state) : list event :=
  EvWrite path (json_dump st) ::
  match write_fault w path with
  | Some e => [EvLog (LogWriteFailed e)]
  | None => []
  end.

Definition saved (w : world) (path : str) (st : state) : world :=
  set_files
    match write_fault w path with
    | Some _ => files w
    | None => <[path := FText (json_dump st)]> (files w)
    end
    (after w (save_events w path st)).

(** The events of an SMTP session: each call in turn, up to the first
    that raises. *)
Fixpoint smtp_session (w : world) (calls : list (smtp_step * event))
  : list event :=
  match calls with
  | [] => [EvLog LogEmailSent]
  | (step, ev) :: calls' =>
      ev :: match smtp_fault w step with
            | Some e => [EvLog (LogEmailFailed e)]
            | None => smtp_session w calls'
            end
  end.

(** The email settings the script tests before it opens a session. *)
Definition email_settings (w : world) : list (option str) :=
  [ environ w !! lit "SMTP_SERVER"; environ w !! lit "SMTP_USERNAME";
    environ w !! lit "SMTP_PASSWORD"; environ w !! lit "EMAIL_TO" ].

Definition email_from (w : world) : option str :=
  match environ w !! lit "EMAIL_FROM" with
  | Some v => Some v
  | None => environ w !! lit "SMTP_USERNAME"
  end.

Definition email_calls (w : world) (port : Z) (subject body : str)
  : list (smtp_step * event) :=
  let to_addrs := environ w !! lit "EMAIL_TO" in
  [ (SmtpConnect, EvSmtpConnect (environ w !! lit "SMTP_SERVER") port);
    (SmtpStartTls, EvSmtpStartTls);
    (SmtpLogin, EvSmtpLogin (environ w !! lit "SMTP_USERNAME")
                            (environ w !! lit "SMTP_PASSWORD"));
    (SmtpSendmail,
     EvSmtpSendmail (email_from w) (split_on 44 (default [] to_addrs))
                    (Message (email_from w) to_addrs subject body));
    (SmtpQuit, EvSmtpQuit) ].

Definition email_events (w : world) (subject body : str) : list event :=
  EvSendEmail subject body ::
  match py_int (smtp_port_text w) with
  | None => []
  | Some port =>
      if forallb opt_truthy (email_settings w)
      then smtp_session w (email_calls w port subject body)
      else [EvLog LogEmailIncomplete]
  end.

Definition email_result (w : world) : result unit :=
  match py_int (smtp_port_text w) with
  | None => Raise ValueError
  | Some _ => Ok tt
  end.

Definition sms_events (w : world) (body : str) : list event :=
  EvSendSms body ::
  match environ w !! lit "SMS_PHONE" with
  | None | Some [] => []
  | Some phone =>
      [ EvPost (lit "https://textbelt.com/text") phone body
               (default (lit "textbelt") (environ w !! lit "TEXTBELT_KEY"));
        EvLog match requests_post w with
              | PostRaises e => LogSmsError e
              | PostReturns (inl e) => LogSmsError e
              | PostReturns (inr data) =>
                  match py_get data (lit "success") with
                  | inl e => LogSmsError e
                  | inr success =>
                      if truthy success then LogSmsSent else LogSmsFailed data
                  end
              end ]
  end.

(** Counting events of a kind in a trace. *)
Definition count (kind : event → bool) (t : list event) : nat :=
  length (List.filter kind t).

Definition is_send_email (e : event) : bool :=
  match e with EvSendEmail _ _ => true | _ => false end.

Definition is_send_sms (e : event) : bool :=
  match e with EvSendSms _ => true | _ => false end.

Definition is_write (e : event) : bool :=
  match e with EvWrite _ _ => true | _ => false end.

(** The calls that reach an SMTP server. *)
Definition is_smtp (e : event) : bool :=
  match e with
  | EvSmtpConnect _ _ | EvSmtpStartTls | EvSmtpLogin _ _
  | EvSmtpSendmail _ _ _ | EvSmtpQuit => true
  | _ => false
  end.

(** [p] occurs in [s]. *)
Definition occurs (p s : str) : Prop := ∃ pre post, s = pre ++ p ++ post.

Section Descriptions.

Variable str_lower : str → str.

(** What [check_tickets] returns. *)
Definition available (w : world) (url : str) : bool :=
  match requests_get w url with
  | GetRaises _ => false
  | GetReturns r =>
      (status_code r =? 200)%Z && scan_phrases (str_lower (text r)) no_phrases
  end.

Definition check_events (w : world) (url : str) : list event :=
  EvGet url ::
  match requests_get w url with
  | GetRaises e => [EvLog (LogFetchError e)]
  | GetReturns r =>
      if (status_code r =? 200)%Z then []
      else [EvLog (LogStatusCode (status_code r))]
  end.

(** The events of [main] up to its decision: loading the state,
    checking the page, the status line. *)
Definition prelude (w : world) (url : str) : list event :=
  load_events w (state_path w) ++ check_events w url
  ++ [EvLog (LogTicketsAvailable (available w url))].

(** The decision of [main]: tickets now, and none on record. *)
Definition rising_edge (w : world) (url : str) (last : pyval) : bool :=
  available w url && negb (truthy last).

(** What [main] returns once it has the previous status [last]. *)
Definition main_result (w : world) (url : str) (last : pyval)
  : result unit :=
  if rising_edge w url last then email_result w else Ok tt.

(** The events of [main] from its decision on. *)
Definition decision_events (w : world) (url : str) (last : pyval)
  : list event :=
  let save := save_events w (state_path w) (State (available w url)) in
  if rising_edge w url last then
    email_events w alert_subject (alert_body url)
    ++ match email_result w with
       | Ok _ => sms_events w (alert_body url) ++ save
       | _ => []
       end
  else save.

(** The file system after [main]. *)
Definition files_after (w : world) (url : str) (last : pyval)
  : gmap str fnode :=
  match main_result w url last, write_fault w (state_path w) with
  | Ok _, None =>
      <[state_path w := FText (json_dump (State (available w url)))]>
        (files w)
  | _, _ => files w
  end.

End Descriptions.

(** ** Example worlds *)

(** A binding of an environment variable, from ASCII literals. *)
Definition var (name value : string) : str * str := (lit name, lit value).

(** A world where the file system accepts writes, the page answers
    [page], the SMS gateway reports success and the SMTP server raises
    what [faults] says. *)
Definition world_of (env : list (str * str)) (fs : list (str * fnode))
    (page : get_outcome) (faults : smtp_step → option exn) : world :=
  World (list_to_map env) (list_to_map fs) (λ _, None) (λ _, page)
        (PostReturns (inr (PDict [(lit "success", PBool true)])))
        faults [].

Definition event_url : string := "https://www.twickets.live/event/1".

Definition page_with_tickets : get_outcome :=
  GetReturns (Response 200 (lit "<html>2 tickets from GBP 40</html>")).

Definition page_without_tickets : get_outcome :=
  GetReturns
    (Response 200
       (lit "<p>Sorry, we don't currently have any tickets available</p>")).

Definition full_mail_env : list (str * str) :=
  [ var "EVENT_URL" event_url; var "SMTP_SERVER" "smtp.example.org";
    var "SMTP_USERNAME" "me@example.org"; var "SMTP_PASSWORD" "secret";
    var "EMAIL_TO" "a@example.org,b@example.org"; var "SMS_PHONE" "447912345678" ].

(** Nothing on record, tickets on the page, every email setting given
    except the port. *)
Definition mail_world : world :=
  world_of full_mail_env [] page_with_tickets (λ _, None).

(** The same, with a server that refuses the login. *)
Definition login_refused_world : world :=
  world_of full_mail_env [] page_with_tickets
    (λ step, match step with
             | SmtpLogin => Some (LibraryError (lit "SMTPAuthenticationError"))
             | _ => None
             end).

(** The same settings with [SMTP_PORT] set to the empty string, as a
    workflow passes a secret that is not defined. *)
Definition empty_port_world : world :=
  world_of (var "SMTP_PORT" "" :: full_mail_env) [] page_with_tickets (λ _, None).

(** A state file that holds valid JSON that is not an object. *)
Definition array_state_world : world :=
  world_of [var "EVENT_URL" event_url]
    [(lit "state.json", FText (jlit "[1]"))] page_with_tickets (λ _, None).

Definition number_state_world : world :=
  world_of [var "EVENT_URL" event_url]
    [(lit "state.json", FText (jlit "7"))] page_with_tickets (λ _, None).

(** Tickets were on record and are still on the page. *)
Definition steady_world : world :=
  world_of full_mail_env
    [(lit "state.json", FText (jlit "{'has_tickets': true}"))]
    page_with_tickets (λ _, None).

(** The state file says [false] as a string. *)
Definition string_state_world : world :=
  world_of full_mail_env
    [(lit "state.json", FText (jlit "{'has_tickets': 'false'}"))]
    page_with_tickets (λ _, None).

(** No tickets on the page, the server host not configured. *)
Definition no_host_world : world :=
  world_of [var "EVENT_URL" event_url; var "SMTP_USERNAME" "me@example.org"]
    [] page_without_tickets (λ _, None).

(** The page is down. *)
Definition outage_world : world :=
  world_of [var "EVENT_URL" event_url] []
    (GetReturns (Response 503 (lit "Service Unavailable"))) (λ _, None).

(** No target URL. *)
Definition unconfigured_world : world :=
  world_of [var "SMS_PHONE" "447912345678"] [] page_with_tickets (λ _, None).


(** ** More kinds of events, and helpers to state what a run does *)

Definition is_get (e : event) : bool :=
  match e with EvGet _ => true | _ => false end.

Definition is_post (e : event) : bool :=
  match e with EvPost _ _ _ _ => true | _ => false end.

Definition is_read (e : event) : bool :=
  match e with EvRead _ => true | _ => false end.

(** The SMTP call an event stands for. *)
Definition event_step (e : event) : option smtp_step :=
  match e with
  | EvSmtpConnect _ _ => Some SmtpConnect
  | EvSmtpStartTls => Some SmtpStartTls
  | EvSmtpLogin _ _ => Some SmtpLogin
  | EvSmtpSendmail _ _ _ => Some SmtpSendmail
  | EvSmtpQuit => Some SmtpQuit
  | _ => None
  end.

(** The calls of a session, in the order of the script. *)
Definition session_steps : list smtp_step :=
  [SmtpConnect; SmtpStartTls; SmtpLogin; SmtpSendmail; SmtpQuit].

(** [sep.join(pieces)] for a one-character separator. *)
Fixpoint join (sep : N) (pieces : list str) : str :=
  match pieces with
  | [] => []
  | [piece] => piece
  | piece :: pieces' => piece ++ sep :: join sep pieces'
  end.


(** A state file that cannot be read. *)
Definition unreadable_state_world : world :=
  world_of full_mail_env
    [(lit "state.json", FUnreadable (LibraryError (lit "PermissionError")))]
    page_with_tickets (λ _, None).


(** A page answered with an empty body. *)
Definition empty_page_world : world :=
  world_of [var "EVENT_URL" event_url] [] (GetReturns (Response 200 [])) (λ _, None).

(** An access to the file system that stays within the state file
    [path]: a read of it, or a write of the JSON text of a state to it. *)
Definition state_file_access (path : str) (e : event) : Prop :=
  match e with
  | EvRead p => p = path
  | EvWrite p t => p = path ∧ ∃ b, t = json_dump (State b)
  | _ => True
  end.

(** A notification call that carries the alert for [url]. *)
Definition alert_for (url : str) (e : event) : Prop :=
  match e with
  | EvSendEmail subject body => subject = alert_subject ∧ body = alert_body url
  | EvSendSms body => body = alert_body url
  | EvPost _ _ body _ => body = alert_body url
  | EvSmtpSendmail _ _ msg =>
      msg_subject msg = alert_subject ∧ msg_payload msg = alert_body url
  | _ => True
  end.

(** The events of a whole run of [main]. *)
Definition main_events (str_lower : str → str) (w : world) : list event :=
  match environ w !! lit "EVENT_URL" with
  | None | Some [] => [EvLog LogUrlUnset]
  | Some url =>
      match last_status_of (stored w (state_path w)) with
      | inl _ => load_events w (state_path w)
      | inr last =>
          prelude str_lower w url ++ decision_events str_lower w url last
      end
  end.

(** * Proofs *)

Arguments lit : simpl never.

(** ** The monad *)

Lemma after_nil w : after w [] = w.
Proof. destruct w; unfold after, set_trace; simpl. by rewrite app_nil_r. Qed.

Lemma after_after w a b : after (after w a) b = after w (a ++ b).
Proof. unfold after, set_trace; simpl. by rewrite app_assoc. Qed.

Lemma bind_ok {A B} (m : M A) (f : A → M B) w a w' :
  m w = (Ok a, w') → (m ≫= f) w = f a w'.
Proof. intros H. unfold mbind, M_bind. by rewrite H. Qed.

Lemma bind_raise {A B} (m : M A) (f : A → M B) w e w' :
  m w = (Raise e, w') → (m ≫= f) w = (Raise e, w').
Proof. intros H. unfold mbind, M_bind. by rewrite H. Qed.

Lemma emit_run e w : emit e w = (Ok tt, after w [e]).
Proof. reflexivity. Qed.

(** Unfolding the monad and the library calls down to the world. *)
Ltac step_monad :=
  unfold log, environ_get, environ_get_str, os_path_exists, read_text,
    write_text, http_get, http_post, smtp_call, int_of_str, json_load,
    split_commas, lift_sum, try_except, answer, emit, raise, sys_exit,
    mbind, M_bind, mret, M_ret;
  simpl.

(** Equations between worlds that differ in how the trace is bracketed. *)
Ltac world_eq :=
  unfold after, set_trace, set_files; simpl;
  rewrite <- ?app_assoc, ?app_nil_r; simpl; try done.

(** ** The functions compute their descriptions *)

Lemma load_state_run path w :
  load_state path w = (Ok (stored w path), after w (load_events w path)).
Proof.
  unfold load_state, stored, load_events. step_monad.
  destruct (files w !! path) as [[t|e]|] eqn:Hf; simpl.
  - rewrite Hf. destruct (json_loads t); simpl; world_eq.
  - rewrite Hf. world_eq.
  - by rewrite after_nil.
Qed.

Lemma save_state_run path st w :
  save_state path st w = (Ok tt, saved w path st).
Proof.
  unfold save_state, saved, save_events. step_monad.
  destruct (write_fault w path); world_eq.
Qed.

Lemma send_email_run subject body w :
  send_email subject body w
  = (email_result w, after w (email_events w subject body)).
Proof.
  unfold send_email, email_result, email_events, smtp_port_text,
    email_settings, email_calls, email_from.
  step_monad.
  destruct (py_int _) as [port|]; simpl; [|world_eq].
  destruct (environ w !! lit "SMTP_SERVER") as [[|c1 s1]|] eqn:E1; simpl; try world_eq.
  destruct (environ w !! lit "SMTP_USERNAME") as [[|c2 s2]|] eqn:E2; simpl; try world_eq.
  destruct (environ w !! lit "SMTP_PASSWORD") as [[|c3 s3]|] eqn:E3; simpl; try world_eq.
  destruct (environ w !! lit "EMAIL_TO") as [[|c4 s4]|] eqn:E4; simpl; try world_eq.
  destruct (smtp_fault w SmtpConnect); simpl; [world_eq|].
  destruct (smtp_fault w SmtpStartTls); simpl; [world_eq|].
  destruct (smtp_fault w SmtpLogin); simpl; [world_eq|].
  destruct (smtp_fault w SmtpSendmail); simpl; [world_eq|].
  destruct (smtp_fault w SmtpQuit); simpl; world_eq.
Qed.

Lemma send_sms_run body w :
  send_sms body w = (Ok tt, after w (sms_events w body)).
Proof.
  unfold send_sms, sms_events. step_monad.
  destruct (environ w !! lit "SMS_PHONE") as [[|c p]|]; simpl; try world_eq.
  destruct (requests_post w) as [e|[e|data]]; simpl; try world_eq.
  destruct (py_get data _) as [e|success]; simpl; try world_eq.
  destruct (truthy success); world_eq.
Qed.

Section ScriptRuns.

Variable str_lower : str → str.

Lemma check_tickets_run url w :
  check_tickets str_lower url w
  = (Ok (available str_lower w url), after w (check_events w url)).
Proof.
  unfold check_tickets, available, check_events. step_monad.
  destruct (requests_get w url) as [e|r]; simpl; [world_eq|].
  destruct (status_code r =? 200)%Z; simpl; world_eq.
Qed.

End ScriptRuns.

(** ** The decoder stays within its budget *)

Lemma skip_ws_length s : length (skip_ws s) ≤ length s.
Proof.
  induction s as [|c s IH]; simpl; [done|].
  destruct (is_json_ws c); simpl; lia.
Qed.

Lemma expect_length c s r : expect c s = Some r → length s = S (length r).
Proof.
  destruct s as [|x s]; simpl; [done|].
  destruct (x =? c)%N; [|done]. by intros [= ->].
Qed.

Lemma take_digits_length s ds r :
  take_digits s = (ds, r) → length s = length ds + length r.
Proof.
  revert ds r. induction s as [|c s IH]; intros ds r; simpl.
  - by intros [= <- <-].
  - destruct (is_digit c).
    + destruct (take_digits s) as [ds' r'] eqn:E. intros [= <- <-].
      simpl. by rewrite (IH ds' r').
    + by intros [= <- <-].
Qed.

Arguments hex4 : simpl never.
Arguments simple_escape : simpl never.
Arguments is_high_surrogate : simpl never.
Arguments is_low_surrogate : simpl never.

(** The scanners consume at least one character. *)
Lemma scanstring_length s x r :
  scanstring s = Some (x, r) → length r < length s.
Proof.
  remember (length s) as n eqn:Hn. revert s x r Hn.
  induction n as [n IH] using lt_wf_ind. intros s x r -> H.
  assert (Hrec : ∀ s' y r', length s' < length s →
            scanstring s' = Some (y, r') → length r' < length s').
  { intros s' y r' Hlt Hs'. by eapply (IH (length s')). }
  destruct s as [|c rest]; [done|]. simpl in H.
  repeat case_match; try done;
    try (injection H as <- <-; simpl; lia);
    (match type of H with
     | context [scanstring ?s'] =>
         destruct (scanstring s') as [[y r']|] eqn:E; [|done];
         simpl in H; injection H as <- <-;
         apply Hrec in E; simpl in *; lia
     end).
Qed.

Lemma match_frac_length s o r : match_frac s = (o, r) → length r ≤ length s.
Proof.
  unfold match_frac. intros H.
  repeat case_match; simplify_eq; try done.
  match goal with
  | E : take_digits _ = _ |- _ => apply take_digits_length in E; simpl in *; lia
  end.
Qed.

Lemma match_exp_length s o r : match_exp s = (o, r) → length r ≤ length s.
Proof.
  unfold match_exp. intros H.
  repeat case_match; simplify_eq; try done;
    match goal with
    | E : take_digits _ = _ |- _ => apply take_digits_length in E; simpl in *; lia
    end.
Qed.

Lemma match_int_length s ip r :
  match_int s = Some (ip, r) → length r < length s.
Proof.
  unfold match_int. intros H.
  destruct s as [|c s]; [done|].
  destruct (c =? 48)%N; [injection H as <- <-; simpl; lia|].
  destruct (is_digit c) eqn:Hd; [|done].
  injection H as H. simpl in H. rewrite Hd in H.
  destruct (take_digits s) as [ds r'] eqn:E. injection H as <- <-.
  apply take_digits_length in E. simpl. lia.
Qed.

Lemma match_number_length s v r :
  match_number s = Parsed v r → length r < length s.
Proof.
  unfold match_number. intros H.
  destruct (match s with
            | [] => (false, s)
            | c :: s' => if (c =? 45)%N then (true, s') else (false, s)
            end) as [neg s0] eqn:Hsign.
  assert (length s0 ≤ length s).
  { destruct s as [|c s']; [by injection Hsign as <- <-|].
    destruct (c =? 45)%N; injection Hsign as <- <-; simpl; lia. }
  destruct (match_int s0) as [[ip s1]|] eqn:Hint; [|done].
  apply match_int_length in Hint.
  destruct (match_frac s1) as [frac s2] eqn:Hfrac.
  apply match_frac_length in Hfrac.
  destruct (match_exp s2) as [ex s3] eqn:Hexp.
  apply match_exp_length in Hexp.
  assert (r = s3) as -> by (by destruct frac, ex; injection H).
  lia.
Qed.

(** [scan_once] and its helpers consume at least one character. *)
Lemma scan_progress fuel :
  (∀ s v r, scan_once fuel s = Parsed v r → length r < length s)
  ∧ (∀ acc s v r, object_members fuel acc s = Parsed v r → length r < length s)
  ∧ (∀ acc s v r, array_items fuel acc s = Parsed v r → length r < length s).
Proof.
  induction fuel as [|fuel (IHs & IHo & IHa)]; [done|].
  split; [|split].
  - intros s v r H. destruct s as [|c rest]; [done|].
    cbn [scan_once] in H.
    destruct (c =? 34)%N.
    { destruct (scanstring rest) as [[x r']|] eqn:E; [|done].
      injection H as <- <-. apply scanstring_length in E. simpl. lia. }
    destruct (c =? 123)%N.
    { pose proof (skip_ws_length rest).
      destruct (expect 125 (skip_ws rest)) as [r'|] eqn:E.
      - injection H as <- <-. apply expect_length in E. simpl. lia.
      - apply IHo in H. simpl. lia. }
    destruct (c =? 91)%N.
    { pose proof (skip_ws_length rest).
      destruct (expect 93 (skip_ws rest)) as [r'|] eqn:E.
      - injection H as <- <-. apply expect_length in E. simpl. lia.
      - apply IHa in H. simpl. lia. }
    repeat (case_match; [injection H as <- <-; rewrite length_drop; simpl; lia|]).
    by apply match_number_length in H.
  - intros acc s v r H. cbn [object_members] in H.
    destruct (expect 34 s) as [s1|] eqn:E1; [|done].
    destruct (scanstring s1) as [[key s2]|] eqn:E2; [|done].
    destruct (expect 58 (skip_ws s2)) as [s3|] eqn:E3; [|done].
    destruct (scan_once fuel (skip_ws s3)) as [x s4| |] eqn:E4; [|done..].
    apply expect_length in E1, E3. apply scanstring_length in E2.
    apply IHs in E4.
    pose proof (skip_ws_length s2). pose proof (skip_ws_length s3).
    pose proof (skip_ws_length s4).
    destruct (skip_ws s4) as [|c s5] eqn:E5; [done|].
    destruct (c =? 125)%N; [injection H as <- <-; simpl in *; lia|].
    destruct (c =? 44)%N; [|done].
    apply IHo in H. pose proof (skip_ws_length s5). simpl in *. lia.
  - intros acc s v r H. cbn [array_items] in H.
    destruct (scan_once fuel s) as [x s1| |] eqn:E1; [|done..].
    apply IHs in E1. pose proof (skip_ws_length s1).
    destruct (skip_ws s1) as [|c s2] eqn:E2; [done|].
    destruct (c =? 93)%N; [injection H as <- <-; simpl in *; lia|].
    destruct (c =? 44)%N; [|done].
    apply IHa in H. pose proof (skip_ws_length s2). simpl in *. lia.
Qed.

(** A budget above twice the length of the text is never used up. *)
Lemma scan_fuel fuel :
  (∀ s, 2 * length s < fuel → scan_once fuel s ≠ Exhausted)
  ∧ (∀ acc s, 2 * length s + 1 < fuel → object_members fuel acc s ≠ Exhausted)
  ∧ (∀ acc s, 2 * length s + 1 < fuel → array_items fuel acc s ≠ Exhausted).
Proof.
  induction fuel as [|fuel (IHs & IHo & IHa)]; [repeat split; intros; lia|].
  destruct (scan_progress fuel) as (Ps & Po & Pa).
  split; [|split].
  - intros s Hlen. destruct s as [|c rest]; [done|].
    cbn [scan_once]. simpl in Hlen. pose proof (skip_ws_length rest).
    destruct (c =? 34)%N; [by destruct (scanstring rest) as [[? ?]|]|].
    destruct (c =? 123)%N.
    { destruct (expect 125 (skip_ws rest)); [done|]. apply IHo. lia. }
    destruct (c =? 91)%N.
    { destruct (expect 93 (skip_ws rest)); [done|]. apply IHa. lia. }
    repeat (case_match; [done|]).
    unfold match_number. repeat case_match; done.
  - intros acc s Hlen. cbn [object_members].
    destruct (expect 34 s) as [s1|] eqn:E1; [|done].
    destruct (scanstring s1) as [[key s2]|] eqn:E2; [|done].
    destruct (expect 58 (skip_ws s2)) as [s3|] eqn:E3; [|done].
    apply expect_length in E1, E3. apply scanstring_length in E2.
    pose proof (skip_ws_length s2). pose proof (skip_ws_length s3).
    destruct (scan_once fuel (skip_ws s3)) as [x s4| |] eqn:E4; [|done|].
    + apply Ps in E4. pose proof (skip_ws_length s4).
      destruct (skip_ws s4) as [|c s5] eqn:E5; [done|].
      destruct (c =? 125)%N; [done|]. destruct (c =? 44)%N; [|done].
      apply IHo. pose proof (skip_ws_length s5). simpl in *. lia.
    + exfalso. revert E4. apply IHs. lia.
  - intros acc s Hlen. cbn [array_items].
    destruct (scan_once fuel s) as [x s1| |] eqn:E1; [|done|].
    + apply Ps in E1. pose proof (skip_ws_length s1).
      destruct (skip_ws s1) as [|c s2] eqn:E2; [done|].
      destruct (c =? 93)%N; [done|]. destruct (c =? 44)%N; [|done].
      apply IHa. pose proof (skip_ws_length s2). simpl in *. lia.
    + exfalso. revert E1. apply IHs. lia.
Qed.

(** [json_loads] never runs out of budget: [None] always stands for a
    malformed text. *)
Lemma json_loads_fuel text :
  scan_once (S (2 * length (skip_ws text))) (skip_ws text) ≠ Exhausted.
Proof. apply scan_fuel. lia. Qed.

Arguments email_events : simpl never.
Arguments sms_events : simpl never.
Arguments load_events : simpl never.
Arguments check_events : simpl never.
Arguments save_events : simpl never.
Arguments alert_body : simpl never.

Section MainRuns.

Variable str_lower : str → str.

(** [main] without a target URL. *)
Lemma main_unset w :
  opt_truthy (environ w !! lit "EVENT_URL") = false →
  main str_lower w = (SystemExit 1, after w [EvLog LogUrlUnset]).
Proof.
  intros H. unfold main. step_monad.
  by destruct (environ w !! lit "EVENT_URL") as [[|c u]|].
Qed.

(** [main] with a target URL. *)
Lemma main_run w url :
  environ w !! lit "EVENT_URL" = Some url → url ≠ [] →
  main str_lower w =
  match last_status_of (stored w (state_path w)) with
  | inl e => (Raise e, after w (load_events w (state_path w)))
  | inr last =>
      (main_result str_lower w url last,
       set_files (files_after str_lower w url last)
         (after w (prelude str_lower w url
                   ++ decision_events str_lower w url last)))
  end.
Proof.
  intros Hurl Hne. unfold main.
  rewrite (bind_ok _ _ w (Some url) w); [|by unfold environ_get, answer; rewrite Hurl].
  destruct url as [|c u]; [done|].
  rewrite (bind_ok _ _ w (state_path w) w); [|done].
  rewrite (bind_ok _ _ _ _ _ (load_state_run _ _)).
  fold (last_status_of (stored w (state_path w))).
  destruct (last_status_of _) as [e|last]; [done|].
  rewrite (bind_ok _ _ _ last (after w (load_events w (state_path w)))); [|done].
  rewrite (bind_ok _ _ _ _ _ (check_tickets_run _ _ _)).
  change (available str_lower (after w _) (c :: u))
    with (available str_lower w (c :: u)).
  change (check_events (after w _) (c :: u)) with (check_events w (c :: u)).
  rewrite after_after.
  unfold main_result, decision_events, files_after, main_result, rising_edge.
  set (cur := available str_lower w (c :: u)).
  rewrite (bind_ok _ _ _ tt (after w (prelude str_lower w (c :: u))));
    [|by unfold prelude, log; rewrite emit_run, after_after, <- app_assoc].
  set (w1 := after w (prelude str_lower w (c :: u))).
  destruct (cur && negb (truthy last)); cbv iota.
  - pose proof (send_email_run alert_subject (alert_body (c :: u)) w1) as He.
    change (email_events w1) with (email_events w) in He.
    change (email_result w1) with (email_result w) in He.
    destruct (email_result w) as [[]|e|code] eqn:Hres.
    + rewrite (bind_ok _ _ _ tt
                 (after w1 (email_events w alert_subject (alert_body (c :: u))
                            ++ sms_events w (alert_body (c :: u))))).
      { rewrite save_state_run. unfold saved, w1.
        change (write_fault (after _ _)) with (write_fault w).
        change (files (after _ _)) with (files w).
        change (save_events (after _ _)) with (save_events w).
        by rewrite !after_after, <- !app_assoc. }
      rewrite (bind_ok _ _ _ _ _ He), send_sms_run.
      by rewrite after_after.
    + rewrite (bind_raise _ _ _ e
                 (after w1 (email_events w alert_subject (alert_body (c :: u))))).
      { unfold w1. by rewrite after_after, app_nil_r. }
      by rewrite (bind_raise _ _ _ _ _ He).
    + unfold email_result in Hres. by destruct (py_int _).
  - rewrite (bind_ok _ _ _ tt w1); [|done].
    rewrite save_state_run. unfold saved, w1.
    change (write_fault (after _ _)) with (write_fault w).
    change (files (after _ _)) with (files w).
    change (save_events (after _ _)) with (save_events w).
    by rewrite !after_after.
Qed.

End MainRuns.

(** ** Substring search *)

Lemma startswith_spec p s : startswith p s = true ↔ ∃ post, s = p ++ post.
Proof.
  revert s. induction p as [|a p IH]; intros s; simpl.
  - split; [eauto|done].
  - destruct s as [|b s].
    + split; [done|]. by intros [post ?].
    + rewrite andb_true_iff, N.eqb_eq, IH. split.
      * intros [-> [post ->]]. eauto.
      * intros [post [= -> ->]]. eauto.
Qed.

Lemma str_in_spec p s : str_in p s = true ↔ occurs p s.
Proof.
  unfold occurs. induction s as [|c s IH]; simpl.
  - rewrite orb_false_r, startswith_spec. split.
    + intros [post ?]. by exists [], post.
    + intros [pre [post H]]. symmetry in H.
      apply app_eq_nil in H as [-> H]. apply app_eq_nil in H as [-> ->].
      by exists [].
  - rewrite orb_true_iff, startswith_spec, IH. split.
    + intros [[post ->]|[pre [post ->]]].
      * by exists [], post.
      * by exists (c :: pre), post.
    + intros [[|c' pre] [post H]].
      * left. eauto.
      * right. injection H as -> ->. eauto.
Qed.

(** The loop answers [False] exactly when some phrase occurs in the page. *)
Lemma scan_phrases_spec html phrases :
  scan_phrases html phrases = false
  ↔ ∃ phrase, In phrase phrases ∧ occurs phrase html.
Proof.
  induction phrases as [|p ps IH]; simpl.
  - split; [done|]. by intros [? [[] _]].
  - destruct (str_in p html) eqn:Hp.
    + split; [|done]. intros _. exists p. split; [by left|]. by apply str_in_spec.
    + rewrite IH. split.
      * intros [q [? ?]]. exists q. auto.
      * intros [q [[<-|?] Hq]]; [|eauto].
        apply str_in_spec in Hq. congruence.
Qed.

(** Case does not matter on ASCII pages: a phrase written in any mix of
    upper and lower case is found after lowering. *)
Lemma ascii_case_insensitive (body variant phrase : str) :
  In phrase no_phrases → ascii_lower variant = phrase →
  occurs variant body →
  scan_phrases (ascii_lower body) no_phrases = false.
Proof.
  intros Hin Hlow (pre & post & ->). apply scan_phrases_spec.
  exists phrase. split; [done|].
  exists (ascii_lower pre), (ascii_lower post).
  unfold ascii_lower in *. by rewrite !map_app, Hlow.
Qed.

Section Checker.

Variable str_lower : str → str.

(** C2, denylist classification.  For every page answered with status
    200, [check_tickets] makes the one request, returns without raising,
    and its answer is [False] exactly when one of the three denylist
    phrases occurs in the lower-cased body, [True] exactly when none
    does. *)
Theorem denylist_classification (w : world) (url body : str) :
  requests_get w url = GetReturns (Response 200 body) →
  ∃ b : bool,
    check_tickets str_lower url w = (Ok b, after w [EvGet url])
    ∧ (b = false ↔
       ∃ phrase,
         In phrase [ lit "sorry, we don't currently have any tickets";
                     lit "no results found";
                     lit "alerts not currently available" ]
         ∧ occurs phrase (str_lower body))
    ∧ (b = true ↔
       ∀ phrase,
         In phrase [ lit "sorry, we don't currently have any tickets";
                     lit "no results found";
                     lit "alerts not currently available" ]
         → ¬ occurs phrase (str_lower body)).
Proof.
  intros Hget. exists (scan_phrases (str_lower body) no_phrases).
  split; [|split].
  - rewrite check_tickets_run. unfold available, check_events.
    by rewrite Hget.
  - apply scan_phrases_spec.
  - rewrite <- not_false_iff_true, scan_phrases_spec. unfold no_phrases.
    split.
    + intros Hno phrase Hin Hocc. apply Hno. eauto.
    + intros Hall [phrase [Hin Hocc]]. by apply (Hall phrase).
Qed.

(** C3, fail-safe default.  When the request raises, or is answered
    with a status other than 200, [check_tickets] returns [False]: it
    does not raise, and it logs the exception or the status code. *)
Theorem fail_safe_default (w : world) (url : str) :
  (∃ e, requests_get w url = GetRaises e)
  ∨ (∃ r, requests_get w url = GetReturns r ∧ status_code r ≠ 200%Z) →
  check_tickets str_lower url w =
  (Ok false,
   after w [ EvGet url;
             EvLog match requests_get w url with
                   | GetRaises e => LogFetchError e
                   | GetReturns r => LogStatusCode (status_code r)
                   end ]).
Proof.
  intros Hbad. rewrite check_tickets_run. unfold available, check_events.
  destruct Hbad as [[e ->]|[r [-> Hcode]]]; [done|].
  by destruct (Z.eqb_spec (status_code r) 200).
Qed.

(** C4, fatal misconfiguration.  With [EVENT_URL] unset or empty the
    run ends in [sys.exit(1)]: the exit status is 1, and the log line
    is all that happened: no request, no notification, no access to
    the state file, and the file system is as before. *)
Theorem missing_url_exits (w : world) :
  environ w !! lit "EVENT_URL" = None
  ∨ environ w !! lit "EVENT_URL" = Some [] →
  let '(r, w') := main str_lower w in
  r = SystemExit 1 ∧ exit_status r = 1%Z
  ∧ trace w' = trace w ++ [EvLog LogUrlUnset]
  ∧ files w' = files w.
Proof.
  intros H. rewrite main_unset; [done|].
  by destruct H as [-> | ->].
Qed.

End Checker.

(** ** Counting the events of a run *)

Lemma count_app kind a b : count kind (a ++ b) = count kind a + count kind b.
Proof. unfold count. by rewrite List.filter_app, length_app. Qed.

Lemma files_saved_ok w path st :
  write_fault w path = None →
  files (saved w path st) = <[path := FText (json_dump st)]> (files w).
Proof. intros H. unfold saved. simpl. by rewrite H. Qed.

(** The notification calls are the first events of [send_email] and
    [send_sms] and occur nowhere else. *)
Lemma count_email_events w subject body :
  count is_send_email (email_events w subject body) = 1
  ∧ count is_send_sms (email_events w subject body) = 0
  ∧ count is_write (email_events w subject body) = 0.
Proof.
  unfold email_events, email_calls. simpl.
  repeat case_match; done.
Qed.

Lemma count_sms_events w body :
  count is_send_email (sms_events w body) = 0
  ∧ count is_send_sms (sms_events w body) = 1
  ∧ count is_write (sms_events w body) = 0.
Proof. unfold sms_events. repeat case_match; done. Qed.

Lemma count_load_events w path :
  count is_send_email (load_events w path) = 0
  ∧ count is_send_sms (load_events w path) = 0
  ∧ count is_write (load_events w path) = 0.
Proof. unfold load_events. repeat case_match; done. Qed.

Lemma count_check_events w url :
  count is_send_email (check_events w url) = 0
  ∧ count is_send_sms (check_events w url) = 0
  ∧ count is_write (check_events w url) = 0.
Proof. unfold check_events. repeat case_match; done. Qed.

Lemma count_save_events w path st :
  count is_send_email (save_events w path st) = 0
  ∧ count is_send_sms (save_events w path st) = 0
  ∧ count is_write (save_events w path st) = 1.
Proof. unfold save_events. repeat case_match; done. Qed.

Lemma count_prelude str_lower w url :
  count is_send_email (prelude str_lower w url) = 0
  ∧ count is_send_sms (prelude str_lower w url) = 0
  ∧ count is_write (prelude str_lower w url) = 0.
Proof.
  unfold prelude. rewrite !count_app.
  destruct (count_load_events w (state_path w)) as (-> & -> & ->).
  by destruct (count_check_events w url) as (-> & -> & ->).
Qed.

(** ** The state store *)

(** What [json.dump] writes for a state, [json.load] reads back. *)
Lemma json_loads_dump (st : state) :
  json_loads (json_dump st) = Some (state_dict st).
Proof. destruct st as [[]]; vm_compute; reflexivity. Qed.

Lemma stored_text w path t :
  files w !! path = Some (FText t) →
  stored w path = default PNone (json_loads t)
  ∧ load_events w path
    = EvRead path :: match json_loads t with
                     | Some _ => []
                     | None => [EvLog (LogReadFailed JSONDecodeError)]
                     end.
Proof. intros H. unfold stored, load_events. by rewrite H. Qed.

(** A state file that cannot be read, or whose text is not JSON, counts
    as no state file: [load_state] returns [None] and the previous
    status is [None]. *)
Lemma corrupt_state_absent w path :
  match files w !! path with
  | Some (FText t) => json_loads t = None
  | _ => True
  end →
  stored w path = PNone ∧ last_status_of (stored w path) = inr PNone.
Proof.
  unfold stored. intros H.
  destruct (files w !! path) as [[t|e]|]; [|done..].
  by rewrite H.
Qed.

Lemma stored_missing w path :
  files w !! path = None → stored w path = PNone ∧ load_events w path = [].
Proof. intros H. unfold stored, load_events. by rewrite H. Qed.


Section Orchestrator.

Variable str_lower : str → str.

Lemma count_decision_events w url last :
  count is_send_email (decision_events str_lower w url last)
  = (if rising_edge str_lower w url last then 1 else 0)
  ∧ count is_send_sms (decision_events str_lower w url last)
    = (if rising_edge str_lower w url last
       then match py_int (smtp_port_text w) with Some _ => 1 | None => 0 end
       else 0)
  ∧ count is_write (decision_events str_lower w url last)
    = (if rising_edge str_lower w url last
       then match py_int (smtp_port_text w) with Some _ => 1 | None => 0 end
       else 1).
Proof.
  unfold decision_events, email_result.
  pose proof (count_email_events w alert_subject (alert_body url)) as (He & Hs & Hw).
  pose proof (count_sms_events w (alert_body url)) as (He' & Hs' & Hw').
  pose proof (count_save_events w (state_path w)
                (State (available str_lower w url))) as (He'' & Hs'' & Hw'').
  destruct (rising_edge _ _ _ _); [|done].
  destruct (py_int _); cbv iota; rewrite ?count_app, ?app_nil_r;
    by rewrite ?He, ?Hs, ?Hw, ?He', ?Hs', ?Hw', ?He'', ?Hs'', ?Hw''.
Qed.

(** The notification calls of a run that gets as far as the decision. *)
Lemma main_notifications (w : world) (url : str) (last : pyval) :
  environ w !! lit "EVENT_URL" = Some url → url ≠ [] →
  last_status_of (stored w (state_path w)) = inr last →
  ∃ evs,
    trace (main str_lower w).2 = trace w ++ evs
    ∧ count is_send_email evs
      = (if available str_lower w url && negb (truthy last) then 1 else 0)
    ∧ count is_send_sms evs ≤ count is_send_email evs
    ∧ (is_Some (py_int (smtp_port_text w)) →
       count is_send_sms evs = count is_send_email evs).
Proof.
  intros Hurl Hne Hlast. rewrite (main_run _ _ _ Hurl Hne), Hlast.
  exists (prelude str_lower w url ++ decision_events str_lower w url last).
  split; [done|]. rewrite !count_app.
  destruct (count_prelude str_lower w url) as (-> & -> & _).
  destruct (count_decision_events w url last) as (-> & -> & _).
  unfold rising_edge.
  destruct (available str_lower w url && negb (truthy last)); simpl.
  - destruct (py_int _); repeat split; auto. by intros [? ?].
  - auto.
Qed.


(** A run that gets past [send_email] ends with the one write of the
    state file, with the answer of the checker. *)
Lemma main_saves (w : world) (url : str) (last : pyval) :
  environ w !! lit "EVENT_URL" = Some url → url ≠ [] →
  last_status_of (stored w (state_path w)) = inr last →
  rising_edge str_lower w url last = false
  ∨ is_Some (py_int (smtp_port_text w)) →
  ∃ evs,
    main str_lower w
    = (Ok tt,
       saved (after w evs) (state_path w)
             (State (available str_lower w url)))
    ∧ count is_write evs = 0.
Proof.
  intros Hurl Hne Hlast Hgo. rewrite (main_run _ _ _ Hurl Hne), Hlast.
  unfold main_result, files_after, main_result, decision_events, email_result.
  pose proof (count_prelude str_lower w url) as (_ & _ & Hp).
  destruct (rising_edge _ _ _ _) eqn:Hedge.
  - destruct Hgo as [?|[port Hport]]; [done|]. rewrite Hport.
    exists (prelude str_lower w url
            ++ email_events w alert_subject (alert_body url)
            ++ sms_events w (alert_body url)).
    split.
    + unfold saved.
      change (write_fault (after _ _)) with (write_fault w).
      change (files (after _ _)) with (files w).
      change (save_events (after _ _)) with (save_events w).
      rewrite after_after, <- !app_assoc.
      by destruct (write_fault w (state_path w)).
    + rewrite !count_app, Hp.
      destruct (count_email_events w alert_subject (alert_body url)) as (_ & _ & ->).
      by destruct (count_sms_events w (alert_body url)) as (_ & _ & ->).
  - exists (prelude str_lower w url). split; [|done].
    unfold saved.
    change (write_fault (after _ _)) with (write_fault w).
    change (files (after _ _)) with (files w).
    change (save_events (after _ _)) with (save_events w).
    rewrite after_after.
    by destruct (write_fault w (state_path w)).
Qed.

End Orchestrator.

Section Completion.

Variable str_lower : str → str.

(** With a port that reads as an integer, nothing that happens in the
    email channel ends the run: whatever the SMTP calls raise, [main]
    returns, [send_sms] is called whenever [send_email] is, and the
    state file is written once. *)
Lemma notification_failure_contained (w : world) (url : str) (last : pyval) :
  environ w !! lit "EVENT_URL" = Some url → url ≠ [] →
  last_status_of (stored w (state_path w)) = inr last →
  is_Some (py_int (smtp_port_text w)) →
  (main str_lower w).1 = Ok tt
  ∧ ∃ evs,
      trace (main str_lower w).2 = trace w ++ evs
      ∧ count is_send_sms evs = count is_send_email evs
      ∧ count is_write evs = 1.
Proof.
  intros Hurl Hne Hlast [port Hport].
  rewrite (main_run _ _ _ Hurl Hne), Hlast. split.
  - unfold main_result, email_result. rewrite Hport. simpl.
    by destruct (rising_edge _ _ _ _).
  - exists (prelude str_lower w url ++ decision_events str_lower w url last).
    split; [done|]. rewrite !count_app.
    destruct (count_prelude str_lower w url) as (-> & -> & ->).
    destruct (count_decision_events str_lower w url last) as (-> & -> & ->).
    rewrite Hport. by destruct (rising_edge _ _ _ _).
Qed.



(** The defect behind C5 and C6, in general: on a rising edge with a
    port that does not read as an integer, the [ValueError] of
    [send_email] ends the run before [send_sms] and [save_state]. *)
Lemma port_error_uncaught (w : world) (url : str) (last : pyval) :
  environ w !! lit "EVENT_URL" = Some url → url ≠ [] →
  last_status_of (stored w (state_path w)) = inr last →
  rising_edge str_lower w url last = true →
  py_int (smtp_port_text w) = None →
  main str_lower w =
  (Raise ValueError,
   after w (prelude str_lower w url
            ++ [EvSendEmail alert_subject (alert_body url)])).
Proof.
  intros Hurl Hne Hlast Hedge Hport.
  rewrite (main_run _ _ _ Hurl Hne), Hlast.
  unfold main_result, files_after, main_result, decision_events,
    email_result, email_events.
  by rewrite Hedge, Hport.
Qed.

(** The defect behind C9, in general: a state file that holds a JSON
    value that is true in Python's sense and not an object ends the run
    in [AttributeError], right after the file is read. *)
Lemma non_object_state_uncaught (w : world) (url t : str) (v : pyval) :
  environ w !! lit "EVENT_URL" = Some url → url ≠ [] →
  files w !! state_path w = Some (FText t) →
  json_loads t = Some v →
  truthy v = true → (∀ d, v ≠ PDict d) →
  main str_lower w
  = (Raise AttributeError, after w [EvRead (state_path w)]).
Proof.
  intros Hurl Hne Hfile Hjson Htrue Hobj.
  rewrite (main_run _ _ _ Hurl Hne).
  destruct (stored_text _ _ _ Hfile) as [-> ->].
  rewrite Hjson. simpl default. unfold last_status_of, py_or.
  rewrite Htrue. destruct v; try done. by destruct (Hobj items).
Qed.

End Completion.

Section PreviousState.

Variable str_lower : str → str.

(** Only the truth value of the previous status matters to [main]. *)
Lemma decision_truthy w url last last' :
  truthy last = truthy last' →
  main_result str_lower w url last = main_result str_lower w url last'
  ∧ decision_events str_lower w url last
    = decision_events str_lower w url last'.
Proof.
  intros H. unfold main_result, decision_events, rising_edge. by rewrite H.
Qed.

(** A state file whose [has_tickets] entry is false-like is as good as
    no state file: the run returns the same and does the same, after
    the one read of the file. *)
Lemma main_false_like_absent w url t v last :
  environ w !! lit "EVENT_URL" = Some url → url ≠ [] →
  files w !! state_path w = Some (FText t) →
  json_loads t = Some v →
  last_status_of v = inr last → truthy last = false →
  let w0 := set_files (delete (state_path w) (files w)) w in
  (main str_lower w).1 = (main str_lower w0).1
  ∧ ∃ evs,
      trace (main str_lower w).2 = trace w ++ EvRead (state_path w) :: evs
      ∧ trace (main str_lower w0).2 = trace w ++ evs
      ∧ count is_send_email evs
        = (if available str_lower w url then 1 else 0).
Proof.
  intros Hurl Hne Hfile Hjson Hlast Hfalse w0.
  assert (Hurl0 : environ w0 !! lit "EVENT_URL" = Some url) by done.
  rewrite (main_run _ _ _ Hurl Hne), (main_run _ _ _ Hurl0 Hne).
  unfold prelude.
  change (state_path w0) with (state_path w).
  destruct (stored_text _ _ _ Hfile) as [-> Hev].
  destruct (stored_missing w0 (state_path w)) as [-> Hev0].
  { apply lookup_delete_eq. }
  rewrite Hjson. simpl default. rewrite Hlast.
  change (last_status_of PNone) with (inr (A:=exn) PNone).
  destruct (decision_truthy w url last PNone Hfalse) as [Hres Hdec].
  split; [by rewrite Hres|].
  exists (check_events w url
          ++ [EvLog (LogTicketsAvailable (available str_lower w url))]
          ++ decision_events str_lower w url PNone).
  rewrite Hev, Hjson, Hev0, Hdec.
  change (decision_events str_lower w0) with (decision_events str_lower w).
  change (available str_lower w0) with (available str_lower w).
  change (check_events w0) with (check_events w).
  split; [simpl trace; by rewrite <- !app_assoc|].
  split; [simpl trace; by rewrite <- !app_assoc|].
  rewrite !count_app.
  destruct (count_check_events w url) as (-> & _ & _).
  destruct (count_decision_events str_lower w url PNone) as (-> & _ & _).
  unfold rising_edge. simpl.
  by rewrite andb_true_r.
Qed.

(** C10, truthiness of the previous status.  Let the state file hold a
    JSON object whose [has_tickets] entry is [v].  When [v] is true in
    Python's sense (the string [false], the number 1, ...) the run
    calls neither [send_email] nor [send_sms], whatever the checker
    answers.  When [v] is false in that sense (0, null, the empty
    string, ...) the run returns and does what it would without the
    state file, after the one read of the file, and calls [send_email]
    once when the checker answers [True]. *)
Theorem truthiness_of_previous_status
    (w : world) (url t : str) (d : list (str * pyval)) (v : pyval) :
  environ w !! lit "EVENT_URL" = Some url → url ≠ [] →
  files w !! state_path w = Some (FText t) →
  json_loads t = Some (PDict d) →
  dict_lookup (lit "has_tickets") d = Some v →
  (truthy v = true →
   ∃ evs,
     trace (main str_lower w).2 = trace w ++ evs
     ∧ count is_send_email evs = 0 ∧ count is_send_sms evs = 0)
  ∧ (truthy v = false →
     let w0 := set_files (delete (state_path w) (files w)) w in
     (main str_lower w).1 = (main str_lower w0).1
     ∧ ∃ evs,
         trace (main str_lower w).2 = trace w ++ EvRead (state_path w) :: evs
         ∧ trace (main str_lower w0).2 = trace w ++ evs
         ∧ count is_send_email evs
           = (if available str_lower w url then 1 else 0)).
Proof.
  intros Hurl Hne Hfile Hjson Hv.
  assert (Hlast : last_status_of (PDict d) = inr v).
  { unfold last_status_of, py_or. destruct d; [done|]. simpl.
    simpl in Hv. by rewrite Hv. }
  split; intros Htruth.
  - destruct (main_notifications str_lower w url v Hurl Hne) as (evs & Ht & He & Hs & _).
    { destruct (stored_text _ _ _ Hfile) as [-> _]. by rewrite Hjson. }
    exists evs. rewrite Htruth, andb_false_r in He.
    split; [done|]. split; [done|]. lia.
  - by apply (main_false_like_absent w url t (PDict d) v).
Qed.

End PreviousState.

Section StateStore.

Variable str_lower : str → str.

(** C7, state round trip.  Where the file system accepts the write,
    [save_state] of [{"has_tickets": b}] returns, and [load_state] of
    the same path then returns [{"has_tickets": b}].  [load_state] of a
    path that does not exist returns [None] and does nothing.  And
    [main], the caller, treats [None] as it treats
    [{"has_tickets": false}]: with that state on file it returns and
    does what it does without the file, after the one read. *)
Theorem state_round_trip (w : world) (path : str) (b : bool) :
  write_fault w path = None →
  let w1 := (save_state path (State b) w).2 in
  let w0 := set_files (delete path (files w)) w in
  (save_state path (State b) w).1 = Ok tt
  ∧ (load_state path w1).1 = Ok (PDict [(lit "has_tickets", PBool b)])
  ∧ load_state path w0 = (Ok PNone, w0)
  ∧ ∀ w' url,
      environ w' !! lit "EVENT_URL" = Some url → url ≠ [] →
      files w' !! state_path w' = Some (FText (json_dump (State false))) →
      let w0' := set_files (delete (state_path w') (files w')) w' in
      (main str_lower w').1 = (main str_lower w0').1
      ∧ ∃ evs,
          trace (main str_lower w').2
          = trace w' ++ EvRead (state_path w') :: evs
          ∧ trace (main str_lower w0').2 = trace w' ++ evs.
Proof.
  intros Hw w1 w0. unfold w1. rewrite save_state_run. simpl.
  split; [done|]. split; [|split].
  - rewrite load_state_run. simpl.
    destruct (stored_text (saved w path (State b)) path (json_dump (State b)))
      as [-> _].
    { rewrite files_saved_ok by done. apply lookup_insert_eq. }
    by rewrite json_loads_dump.
  - rewrite load_state_run.
    destruct (stored_missing w0 path) as [-> ->]; [apply lookup_delete_eq|].
    by rewrite after_nil.
  - intros w' url Hurl Hne Hfile.
    destruct (main_false_like_absent str_lower w' url _ _ (PBool false)
                Hurl Hne Hfile (json_loads_dump (State false)))
      as (Hres & evs & H1 & H2 & _); [done..|].
    split; [done|]. by exists evs.
Qed.

End StateStore.

(** ** The email channel *)

(** C8, email skip condition, as the script has it.  The settings it
    requires are the server host, the user name, the password and the
    recipient list; the port is not among them, it defaults to 587.
    Whenever [SMTP_PORT] is unset or reads as an integer and one of the
    four is unset or empty, [send_email] logs that the configuration is
    incomplete, makes no SMTP call and returns. *)
Theorem email_skips_when_incomplete (w : world) (subject body : str) :
  is_Some (py_int (smtp_port_text w)) →
  (∃ setting, In setting (email_settings w) ∧ opt_truthy setting = false) →
  send_email subject body w =
  (Ok tt, after w [EvSendEmail subject body; EvLog LogEmailIncomplete])
  ∧ count is_smtp (trace (send_email subject body w).2)
    = count is_smtp (trace w).
Proof.
  intros [port Hport] (setting & Hin & Hfalse).
  assert (Hall : forallb opt_truthy (email_settings w) = false).
  { apply not_true_is_false. intros Hall.
    rewrite forallb_forall in Hall. specialize (Hall _ Hin). congruence. }
  assert (Hrun : send_email subject body w =
    (Ok tt, after w [EvSendEmail subject body; EvLog LogEmailIncomplete])).
  { rewrite send_email_run. unfold email_result, email_events.
    by rewrite Hport, Hall. }
  split; [done|]. rewrite Hrun. simpl. rewrite count_app.
  apply Nat.add_0_r.
Qed.

(** ** Runs that end early *)

(** C5, channel independence and non-abortion: what the script does when
    [int(SMTP_PORT)] raises inside [send_email].  In [empty_port_world]
    tickets are newly available and [SMTP_PORT] is the empty string: the
    [ValueError] leaves [send_email] and [main] uncaught, the process
    ends with status 1, [send_sms] is not called although a phone number
    is configured, and the state is not saved. *)
Theorem port_error_aborts_run :
  let '(r, w') := main ascii_lower empty_port_world in
  r = Raise ValueError ∧ exit_status r = 1%Z
  ∧ environ empty_port_world !! lit "SMS_PHONE" = Some (lit "447912345678")
  ∧ count is_send_email (trace w') = 1
  ∧ count is_send_sms (trace w') = 0
  ∧ count is_write (trace w') = 0.
Proof. vm_compute. repeat split. Qed.

(** C6, unconditional persistence: a run with [EVENT_URL] set that does
    not write the state file.  In [empty_port_world] the checker answers
    [True], and the run ends in [send_email] with no write at all: no
    state file exists afterwards. *)
Theorem run_without_save :
  environ empty_port_world !! lit "EVENT_URL" = Some (lit event_url)
  ∧ available ascii_lower empty_port_world (lit event_url) = true
  ∧ count is_write (trace (main ascii_lower empty_port_world).2) = 0
  ∧ files (main ascii_lower empty_port_world).2
    !! state_path empty_port_world = None.
Proof. vm_compute. repeat split. Qed.

(** C9, state-file robustness: what the script does with a state file
    that holds JSON that is not an object.  With [[1]] or [7] in the
    file, [load_state] returns the list or the number, [state.get]
    raises [AttributeError], and the run ends there with status 1: the
    page is not checked and the state is not saved. *)
Theorem non_object_state_crashes :
  main ascii_lower array_state_world
  = (Raise AttributeError, after array_state_world [EvRead (lit "state.json")])
  ∧ main ascii_lower number_state_world
    = (Raise AttributeError,
       after number_state_world [EvRead (lit "state.json")])
  ∧ exit_status (main ascii_lower array_state_world).1 = 1%Z.
Proof. vm_compute. repeat split. Qed.

(** C8 as stated fails for the port: with the port missing and the
    other settings given, [send_email] does not skip; it opens a session
    on port 587 and sends the message. *)
Lemma port_missing_no_skip :
  environ mail_world !! lit "SMTP_PORT" = None
  ∧ count is_smtp (trace (send_email alert_subject [] mail_world).2) = 5
  ∧ (send_email alert_subject [] mail_world).2.(trace) !! 1
    = Some (EvSmtpConnect (Some (lit "smtp.example.org")) 587)
  ∧ last (trace (send_email alert_subject [] mail_world).2)
    = Some (EvLog LogEmailSent).
Proof. vm_compute. repeat split. Qed.

(** ** The theorems at work on the example worlds *)


(** The page of an event without tickets is classified [False]. *)
Lemma denylist_sorry_page :
  ∃ b : bool,
    check_tickets ascii_lower (lit event_url) no_host_world
    = (Ok b, after no_host_world [EvGet (lit event_url)])
    ∧ (b = false ↔
       ∃ phrase,
         In phrase [ lit "sorry, we don't currently have any tickets";
                     lit "no results found";
                     lit "alerts not currently available" ]
         ∧ occurs phrase
             (ascii_lower
                (lit "<p>Sorry, we don't currently have any tickets available</p>")))
    ∧ (b = true ↔
       ∀ phrase,
         In phrase [ lit "sorry, we don't currently have any tickets";
                     lit "no results found";
                     lit "alerts not currently available" ]
         → ¬ occurs phrase
             (ascii_lower
                (lit "<p>Sorry, we don't currently have any tickets available</p>"))).
Proof.
  apply (denylist_classification ascii_lower no_host_world).
  vm_compute; reflexivity.
Defined.

(** A 503 from the event page counts as no tickets. *)
Lemma fail_safe_outage :
  check_tickets ascii_lower (lit event_url) outage_world =
  (Ok false,
   after outage_world [EvGet (lit event_url); EvLog (LogStatusCode 503)]).
Proof.
  apply (fail_safe_default ascii_lower outage_world (lit event_url)).
  right. exists (Response 503 (lit "Service Unavailable")).
  split; [vm_compute; reflexivity | simpl; lia].
Defined.

Lemma missing_url_unconfigured :
  let '(r, w') := main ascii_lower unconfigured_world in
  r = SystemExit 1 ∧ exit_status r = 1%Z
  ∧ trace w' = trace unconfigured_world ++ [EvLog LogUrlUnset]
  ∧ files w' = files unconfigured_world.
Proof.
  apply (missing_url_exits ascii_lower unconfigured_world).
  left. vm_compute; reflexivity.
Defined.

Lemma state_round_trip_true :
  (load_state (lit "state.json")
     (save_state (lit "state.json") (State true) mail_world).2).1
  = Ok (PDict [(lit "has_tickets", PBool true)]).
Proof.
  apply (state_round_trip ascii_lower mail_world (lit "state.json") true).
  reflexivity.
Defined.

Lemma email_skips_without_host :
  send_email alert_subject [] no_host_world =
  (Ok tt,
   after no_host_world [EvSendEmail alert_subject []; EvLog LogEmailIncomplete])
  ∧ count is_smtp (trace (send_email alert_subject [] no_host_world).2)
    = count is_smtp (trace no_host_world).
Proof.
  apply (email_skips_when_incomplete no_host_world alert_subject []).
  - exists 587%Z. vm_compute; reflexivity.
  - exists None. split; [left; vm_compute; reflexivity | reflexivity].
Defined.

(** The string [false] on record counts as tickets on record. *)
Lemma truthiness_string_false :
  ∃ evs,
    trace (main ascii_lower string_state_world).2
    = trace string_state_world ++ evs
    ∧ count is_send_email evs = 0 ∧ count is_send_sms evs = 0.
Proof.
  apply (truthiness_of_previous_status ascii_lower string_state_world
           (lit event_url) (jlit "{'has_tickets': 'false'}")
           [(lit "has_tickets", PStr (lit "false"))] (PStr (lit "false")));
    try (vm_compute; reflexivity).
  discriminate.
Defined.

(** ** Scenarios of the specification *)

(** The server refuses the login: the error is logged, the SMS is sent
    all the same, the state is saved and the run ends with status 0. *)
Example login_refused_run :
  let '(r, w') := main ascii_lower login_refused_world in
  r = Ok tt ∧ exit_status r = 0%Z
  ∧ In (EvLog (LogEmailFailed (LibraryError (lit "SMTPAuthenticationError"))))
       (trace w')
  ∧ count is_send_sms (trace w') = 1
  ∧ count is_write (trace w') = 1
  ∧ files w' !! lit "state.json" = Some (FText (jlit "{'has_tickets': true}")).
Proof. vm_compute. tauto. Qed.

(** Tickets on record and still on the page: nothing is sent and the
    record stays. *)
Example steady_run :
  let '(r, w') := main ascii_lower steady_world in
  r = Ok tt
  ∧ count is_send_email (trace w') = 0 ∧ count is_send_sms (trace w') = 0
  ∧ files w' !! lit "state.json" = Some (FText (jlit "{'has_tickets': true}")).
Proof. vm_compute. tauto. Qed.

(** The page says there are no tickets: the check is [False], nothing is
    sent, and [false] is saved. *)
Example sorry_page_run :
  let '(r, w') := main ascii_lower no_host_world in
  r = Ok tt
  ∧ In (EvLog (LogTicketsAvailable false)) (trace w')
  ∧ count is_send_email (trace w') = 0 ∧ count is_send_sms (trace w') = 0
  ∧ files w' !! lit "state.json" = Some (FText (jlit "{'has_tickets': false}")).
Proof. vm_compute. tauto. Qed.

(** * Further properties of the script *)

(** ** The SMS channel *)

Lemma count_cons kind e t :
  count kind (e :: t) = (if kind e then 1 else 0) + count kind t.
Proof. unfold count. simpl. by destruct (kind e). Qed.

(** X1.  [send_sms] never raises and never touches the file system: in
    every world, whatever the gateway does, it returns, after at most
    one POST and at most one log line, and without any SMTP call or
    write. *)
Theorem sms_never_raises (w : world) (body : str) :
  (send_sms body w).1 = Ok tt
  ∧ files (send_sms body w).2 = files w
  ∧ ∃ evs,
      trace (send_sms body w).2 = trace w ++ EvSendSms body :: evs
      ∧ count is_post evs ≤ 1 ∧ length evs ≤ 2
      ∧ count is_smtp evs = 0 ∧ count is_write evs = 0.
Proof.
  rewrite send_sms_run. split; [done|]. split; [done|].
  unfold sms_events. eexists. split; [done|].
  repeat case_match; unfold count; simpl; lia.
Qed.

(** X2.  Without a phone number ([SMS_PHONE] unset or empty) [send_sms]
    does nothing at all: no request, no log line. *)
Theorem sms_skipped_without_phone (w : world) (body : str) :
  opt_truthy (environ w !! lit "SMS_PHONE") = false →
  send_sms body w = (Ok tt, after w [EvSendSms body]).
Proof.
  intros H. rewrite send_sms_run. unfold sms_events.
  by destruct (environ w !! lit "SMS_PHONE") as [[|c p]|].
Qed.

Lemma sms_skipped_without_phone_witness :
  send_sms (lit "hello") no_host_world
  = (Ok tt, after no_host_world [EvSendSms (lit "hello")]).
Proof.
  apply (sms_skipped_without_phone no_host_world (lit "hello")).
  vm_compute; reflexivity.
Defined.

(** X3.  With a phone number, [send_sms] makes exactly one POST to the
    Textbelt endpoint with that number, the message, and the key of
    [TEXTBELT_KEY]; the key [textbelt] is used only when the variable is
    unset (a variable set to the empty string gives the empty key).  One
    log line follows. *)
Theorem sms_request (w : world) (body phone : str) :
  environ w !! lit "SMS_PHONE" = Some phone → phone ≠ [] →
  ∃ m,
    send_sms body w =
    (Ok tt,
     after w [ EvSendSms body;
               EvPost (lit "https://textbelt.com/text") phone body
                 match environ w !! lit "TEXTBELT_KEY" with
                 | Some key => key
                 | None => lit "textbelt"
                 end;
               EvLog m ]).
Proof.
  intros Hphone Hne. rewrite send_sms_run. unfold sms_events. rewrite Hphone.
  destruct phone as [|c p]; [done|]. eexists.
  by destruct (environ w !! lit "TEXTBELT_KEY").
Qed.

Lemma sms_request_witness :
  ∃ m,
    send_sms (lit "hello") mail_world =
    (Ok tt,
     after mail_world
       [ EvSendSms (lit "hello");
         EvPost (lit "https://textbelt.com/text") (lit "447912345678")
           (lit "hello") (lit "textbelt");
         EvLog m ]).
Proof.
  apply (sms_request mail_world (lit "hello") (lit "447912345678")).
  - vm_compute; reflexivity.
  - discriminate.
Defined.

(** X4.  [send_sms] reports the SMS as sent exactly when the gateway
    answers with a JSON object whose [success] entry is true in Python's
    sense.  An answer without such an entry, an answer that is not JSON,
    a JSON value that is not an object, or an exception gives a failure
    line as the last event instead. *)
Theorem sms_sent_iff_success (w : world) (body phone : str) :
  environ w !! lit "SMS_PHONE" = Some phone → phone ≠ [] →
  last (trace (send_sms body w).2) = Some (EvLog LogSmsSent)
  ↔ ∃ d v,
      requests_post w = PostReturns (inr (PDict d))
      ∧ dict_lookup (lit "success") d = Some v ∧ truthy v = true.
Proof.
  intros Hphone Hne. rewrite send_sms_run. unfold sms_events. rewrite Hphone.
  destruct phone as [|c p]; [done|]. simpl trace. rewrite last_app. simpl.
  destruct (requests_post w) as [e|[e|data]].
  - split; [done|]. by intros (d & v & ? & _).
  - split; [done|]. by intros (d & v & ? & _).
  - destruct data as [| | | | | |d]; simpl;
      try (split; [done|]; by intros (d' & v & ? & _)).
    destruct (dict_lookup (lit "success") d) as [v|] eqn:Hd; simpl.
    + destruct (truthy v) eqn:Hv.
      * split; [|done]. intros _. by exists d, v.
      * split; [done|]. intros (d' & v' & [= <-] & Hd' & Hv'). congruence.
    + split; [done|]. intros (d' & v' & [= <-] & Hd' & Hv'). congruence.
Qed.

Lemma sms_sent_iff_success_witness :
  last (trace (send_sms (lit "hello") mail_world).2) = Some (EvLog LogSmsSent)
  ↔ ∃ d v,
      requests_post mail_world = PostReturns (inr (PDict d))
      ∧ dict_lookup (lit "success") d = Some v ∧ truthy v = true.
Proof.
  apply (sms_sent_iff_success mail_world (lit "hello") (lit "447912345678")).
  - vm_compute; reflexivity.
  - discriminate.
Defined.

(** ** The email channel *)

Lemma split_on_nonempty sep s : split_on sep s ≠ [].
Proof.
  destruct s as [|c s]; simpl; [done|].
  destruct (c =? sep)%N; [done|]. by destruct (split_on sep s).
Qed.

Lemma join_split_on sep s : join sep (split_on sep s) = s.
Proof.
  induction s as [|c s IH]; simpl; [done|].
  pose proof (split_on_nonempty sep s) as Hne.
  destruct (N.eqb_spec c sep) as [->|Hc].
  - destruct (split_on sep s) as [|p ps]; [done|].
    change (join sep ([] :: p :: ps)) with (sep :: join sep (p :: ps)).
    by rewrite IH.
  - destruct (split_on sep s) as [|p ps]; [done|].
    rewrite <- IH. by destruct ps.
Qed.

Lemma split_on_no_sep sep s :
  Forall (λ piece, ¬ In sep piece) (split_on sep s).
Proof.
  induction s as [|c s IH]; simpl.
  - repeat constructor. by intros [].
  - destruct (N.eqb_spec c sep) as [->|Hc].
    + constructor; [by intros []|done].
    + destruct (split_on sep s) as [|p ps]; [repeat constructor; by intros [|[]]|].
      inversion IH as [|? ? Hp Hps]; subst. constructor; [|done].
      by intros [|].
Qed.





Lemma send_email_events w subject body evs :
  trace (send_email subject body w).2 = trace w ++ evs →
  evs = email_events w subject body.
Proof.
  rewrite send_email_run. simpl. intros H. by apply app_inv_head in H.
Qed.

(** The calls that come before a given call of the session. *)
Lemma steps_before step before later :
  session_steps = before ++ step :: later →
  before = match step with
           | SmtpConnect => []
           | SmtpStartTls => [SmtpConnect]
           | SmtpLogin => [SmtpConnect; SmtpStartTls]
           | SmtpSendmail => [SmtpConnect; SmtpStartTls; SmtpLogin]
           | SmtpQuit => [SmtpConnect; SmtpStartTls; SmtpLogin; SmtpSendmail]
           end.
Proof.
  unfold session_steps. intros H.
  do 5 (destruct before as [|? before]; simpl in H;
        [by destruct step; simplify_eq | injection H as <- H]).
  by destruct before.
Qed.

(** X7.  No SMTP call is made unless every earlier call of the session
    returned, and none at all unless the four settings are given.  In
    particular the user name and password are only sent after the
    connection was made and upgraded to TLS. *)
Theorem smtp_call_needs_earlier
    (w : world) (subject body : str) (evs : list event) (e : event)
    (step : smtp_step) (before later : list smtp_step) :
  trace (send_email subject body w).2 = trace w ++ evs →
  In e evs → event_step e = Some step →
  session_steps = before ++ step :: later →
  forallb opt_truthy (email_settings w) = true
  ∧ Forall (λ s, smtp_fault w s = None) before.
Proof.
  intros Hevs Hin Hstep Hsteps. apply send_email_events in Hevs as ->.
  unfold email_events in Hin. destruct Hin as [<-|Hin]; [done|].
  destruct (py_int _) as [port|]; [|done].
  destruct (forallb opt_truthy (email_settings w)); [|by destruct Hin as [<-|[]]].
  split; [done|]. apply steps_before in Hsteps as ->.
  unfold email_calls in Hin. simpl in Hin.
  destruct (smtp_fault w SmtpConnect) eqn:F1;
    [|destruct (smtp_fault w SmtpStartTls) eqn:F2;
      [|destruct (smtp_fault w SmtpLogin) eqn:F3;
        [|destruct (smtp_fault w SmtpSendmail) eqn:F4;
          [|destruct (smtp_fault w SmtpQuit) eqn:F5]]]];
    simpl in Hin;
    repeat (destruct Hin as [<-|Hin];
            [simpl in Hstep; simplify_eq; by repeat constructor|]);
    done.
Qed.

Lemma smtp_call_needs_earlier_witness :
  forallb opt_truthy (email_settings login_refused_world) = true
  ∧ Forall (λ s, smtp_fault login_refused_world s = None)
           [SmtpConnect; SmtpStartTls].
Proof.
  apply (smtp_call_needs_earlier login_refused_world (lit "s") (lit "b")
           (email_events login_refused_world (lit "s") (lit "b"))
           (EvSmtpLogin (Some (lit "me@example.org")) (Some (lit "secret")))
           SmtpLogin [SmtpConnect; SmtpStartTls] [SmtpSendmail; SmtpQuit]).
  - vm_compute; reflexivity.
  - vm_compute. right. right. right. left. reflexivity.
  - reflexivity.
  - reflexivity.
Defined.

(** X8.  What is handed to the server is what the caller and the
    environment gave.  Whenever [send_email] calls [sendmail], the
    message has the subject and body it was called with, its [To] header
    is [EMAIL_TO] as it stands, its [From] header and the sender are
    [EMAIL_FROM] (the user name when that is unset), and the recipients
    are the pieces of [EMAIL_TO] between its commas: at least one, none
    containing a comma, and joined by commas they give [EMAIL_TO] back
    (nothing is trimmed or dropped). *)
Theorem sendmail_arguments
    (w : world) (subject body : str) (evs : list event)
    (from_addr : option str) (recipients : list str) (msg : message) :
  trace (send_email subject body w).2 = trace w ++ evs →
  In (EvSmtpSendmail from_addr recipients msg) evs →
  ∃ to,
    environ w !! lit "EMAIL_TO" = Some to
    ∧ msg = Message from_addr (Some to) subject body
    ∧ from_addr = match environ w !! lit "EMAIL_FROM" with
                  | Some addr => Some addr
                  | None => environ w !! lit "SMTP_USERNAME"
                  end
    ∧ join 44 recipients = to
    ∧ recipients ≠ []
    ∧ Forall (λ piece, ¬ In 44%N piece) recipients.
Proof.
  intros Hevs Hin. apply send_email_events in Hevs as ->.
  unfold email_events in Hin. destruct Hin as [?|Hin]; [done|].
  destruct (py_int _) as [port|]; [|done].
  destruct (forallb opt_truthy (email_settings w)) eqn:Hset;
    [|by destruct Hin as [?|[]]].
  unfold email_settings in Hset. simpl in Hset.
  destruct (environ w !! lit "EMAIL_TO") as [to|] eqn:Hto;
    [|by rewrite !andb_false_r in Hset].
  assert (Hmsg : from_addr = email_from w
                 ∧ recipients = split_on 44 to
                 ∧ msg = Message (email_from w) (Some to) subject body).
  { unfold email_calls in Hin. rewrite Hto in Hin. simpl in Hin.
    repeat case_match; simpl in Hin;
      repeat (destruct Hin as [Hin|Hin]; [by simplify_eq|]); done. }
  destruct Hmsg as (-> & -> & ->). exists to.
  split; [done|]. split; [done|]. split; [done|].
  split; [apply join_split_on|].
  split; [apply split_on_nonempty | apply split_on_no_sep].
Qed.

Lemma sendmail_arguments_witness :
  ∃ to,
    environ mail_world !! lit "EMAIL_TO" = Some to
    ∧ Message (Some (lit "me@example.org"))
        (Some (lit "a@example.org,b@example.org")) (lit "s") (lit "b")
      = Message (Some (lit "me@example.org")) (Some to) (lit "s") (lit "b")
    ∧ Some (lit "me@example.org")
      = match environ mail_world !! lit "EMAIL_FROM" with
        | Some addr => Some addr
        | None => environ mail_world !! lit "SMTP_USERNAME"
        end
    ∧ join 44 [lit "a@example.org"; lit "b@example.org"] = to
    ∧ [lit "a@example.org"; lit "b@example.org"] ≠ []
    ∧ Forall (λ piece, ¬ In 44%N piece)
             [lit "a@example.org"; lit "b@example.org"].
Proof.
  apply (sendmail_arguments mail_world (lit "s") (lit "b")
           (email_events mail_world (lit "s") (lit "b"))).
  - vm_compute; reflexivity.
  - vm_compute. do 4 right. left. reflexivity.
Defined.

(** ** The state store, once more *)

(** X9.  [load_state] never raises and changes nothing: in every world
    it returns, after at most a read of the path and a log line, and the
    file system is as before.  What it returns is [None], unless the
    path is a readable text that is JSON, whose value it then returns
    whatever its type. *)
Theorem load_state_never_raises (w : world) (path : str) :
  ∃ v evs,
    load_state path w = (Ok v, after w evs)
    ∧ files (load_state path w).2 = files w
    ∧ (∀ e, In e evs → e = EvRead path ∨ ∃ x, e = EvLog (LogReadFailed x))
    ∧ count is_read evs ≤ 1
    ∧ (v ≠ PNone →
       ∃ t, files w !! path = Some (FText t) ∧ json_loads t = Some v).
Proof.
  rewrite load_state_run. exists (stored w path), (load_events w path).
  split; [done|]. split; [done|].
  unfold stored, load_events.
  destruct (files w !! path) as [[t|x]|] eqn:Hf.
  - destruct (json_loads t) as [v|] eqn:Hj; simpl.
    + split; [intros e [<-|[]]; by left|]. split; [done|]. intros _.
      by exists t.
    + split; [|done]. intros e [<-|[<-|[]]]; [by left|right; eauto].
  - split; [|done]. intros e [<-|[<-|[]]]; [by left|right; eauto].
  - split; [by intros e []|]. split; [unfold count; simpl; lia|done].
Qed.

(** X10.  A state file that cannot be read, or whose text is not JSON,
    makes [load_state] log the error and return [None], like a missing
    file: the exception of [open], [read] or [json.load] does not leave
    the function. *)
Theorem load_state_failure_logged (w : world) (path : str) (e : exn) :
  files w !! path = Some (FUnreadable e)
  ∨ (∃ t, files w !! path = Some (FText t) ∧ json_loads t = None
          ∧ e = JSONDecodeError) →
  load_state path w
  = (Ok PNone, after w [EvRead path; EvLog (LogReadFailed e)]).
Proof.
  intros H. rewrite load_state_run. unfold stored, load_events.
  destruct H as [->|(t & -> & -> & ->)]; done.
Qed.

Lemma load_state_failure_logged_witness :
  load_state (lit "state.json") unreadable_state_world
  = (Ok PNone,
     after unreadable_state_world
       [ EvRead (lit "state.json");
         EvLog (LogReadFailed (LibraryError (lit "PermissionError"))) ]).
Proof.
  apply (load_state_failure_logged unreadable_state_world (lit "state.json")).
  left. vm_compute; reflexivity.
Defined.


(** X12.  The last save wins.  Where the file system accepts writes to
    the path, saving one state and then another leaves the file system
    as saving the second alone does, and [load_state] then returns the
    second. *)
Theorem save_overwrites (w : world) (path : str) (st1 st2 : state) :
  write_fault w path = None →
  let w2 := (save_state path st2 (save_state path st1 w).2).2 in
  files w2 = files (save_state path st2 w).2
  ∧ (load_state path w2).1 = Ok (state_dict st2).
Proof.
  intros Hw. simpl. rewrite !save_state_run. unfold saved. simpl.
  rewrite Hw. simpl. rewrite insert_insert_eq. split; [done|].
  rewrite load_state_run. simpl. unfold stored. simpl.
  rewrite lookup_insert_eq. by rewrite json_loads_dump.
Qed.

Lemma save_overwrites_witness :
  let w2 := (save_state (lit "state.json") (State false)
               (save_state (lit "state.json") (State true) mail_world).2).2 in
  files w2 = files (save_state (lit "state.json") (State false) mail_world).2
  ∧ (load_state (lit "state.json") w2).1 = Ok (state_dict (State false)).
Proof.
  apply (save_overwrites mail_world (lit "state.json") (State true)
           (State false)).
  reflexivity.
Defined.

(** ** The checker, once more *)

Lemma occurs_length p s : occurs p s → length p ≤ length s.
Proof. intros (pre & post & ->). rewrite !length_app. lia. Qed.

Section ShortPages.

Variable str_lower : str → str.

(** X13.  A page too short to hold a denylist phrase counts as tickets.
    When the page is answered with status 200 and its lower-cased body
    has fewer than 16 characters (the length of the shortest phrase),
    the empty body included, [check_tickets] returns [True]. *)
Theorem short_page_available (w : world) (url body : str) :
  requests_get w url = GetReturns (Response 200 body) →
  length (str_lower body) < 16 →
  check_tickets str_lower url w = (Ok true, after w [EvGet url]).
Proof.
  intros Hget Hlen.
  assert (Hno : scan_phrases (str_lower body) no_phrases = true).
  { destruct (scan_phrases (str_lower body) no_phrases) eqn:Hscan; [done|].
    apply scan_phrases_spec in Hscan as (phrase & Hin & Hocc).
    apply occurs_length in Hocc.
    destruct Hin as [<-|[<-|[<-|[]]]]; unfold lit in Hocc; simpl in Hocc; lia. }
  rewrite check_tickets_run. unfold available, check_events.
  rewrite Hget. simpl. do 2 f_equal. exact Hno.
Qed.

End ShortPages.

(** ** Whole runs *)

(** A property of events that holds of everything a run can do holds of
    the events of every run. *)
Lemma Forall_smtp_session (P : event → Prop) w calls :
  Forall P (map snd calls) →
  P (EvLog LogEmailSent) → (∀ e, P (EvLog (LogEmailFailed e))) →
  Forall P (smtp_session w calls).
Proof.
  intros Hcalls Hsent Hfailed.
  induction calls as [|[step ev] calls IH]; simpl.
  - by constructor.
  - inversion Hcalls; subst. constructor; [done|].
    destruct (smtp_fault w step); [by repeat constructor | by apply IH].
Qed.

Lemma Forall_main_events (P : event → Prop) str_lower w :
  let url := default [] (environ w !! lit "EVENT_URL") in
  (∀ m, P (EvLog m)) →
  P (EvRead (state_path w)) →
  (∀ b, P (EvWrite (state_path w) (json_dump (State b)))) →
  P (EvGet url) →
  P (EvSendEmail alert_subject (alert_body url)) →
  P (EvSendSms (alert_body url)) →
  (∀ post phone key, P (EvPost post phone (alert_body url) key)) →
  (∀ port,
     Forall P (map snd (email_calls w port alert_subject (alert_body url)))) →
  Forall P (main_events str_lower w).
Proof.
  intros url Hlog Hread Hwrite Hget Hemail Hsms Hpost Hcalls.
  assert (Hload : Forall P (load_events w (state_path w))).
  { unfold load_events. repeat case_match; by repeat constructor. }
  unfold main_events. unfold url in *. clear url.
  destruct (environ w !! lit "EVENT_URL") as [[|c u]|];
    [by repeat constructor| |by repeat constructor].
  simpl default in *.
  destruct (last_status_of _) as [e|last]; [done|].
  unfold prelude, decision_events.
  assert (Hsave : ∀ b, Forall P (save_events w (state_path w) (State b))).
  { intros b. unfold save_events. repeat case_match; by repeat constructor. }
  assert (Hmail : Forall P (email_events w alert_subject (alert_body (c :: u)))).
  { unfold email_events. constructor; [done|].
    destruct (py_int _); [|done].
    destruct (forallb opt_truthy (email_settings w)); [|by repeat constructor].
    apply Forall_smtp_session; auto. }
  assert (Hs : Forall P (sms_events w (alert_body (c :: u)))).
  { unfold sms_events. constructor; [done|].
    repeat case_match; by repeat constructor. }
  rewrite !Forall_app. split; [split; [done|split]|].
  - unfold check_events. constructor; [done|].
    repeat case_match; by repeat constructor.
  - by repeat constructor.
  - destruct (rising_edge _ _ _ _); [|done].
    rewrite Forall_app. split; [done|].
    destruct (email_result w); [|done..].
    rewrite Forall_app. by split.
Qed.

Section WholeRuns.

Variable str_lower : str → str.

Lemma main_trace (w : world) :
  trace (main str_lower w).2 = trace w ++ main_events str_lower w.
Proof.
  unfold main_events.
  destruct (environ w !! lit "EVENT_URL") as [[|c u]|] eqn:Hurl.
  - by rewrite main_unset by (by rewrite Hurl).
  - rewrite (main_run _ _ _ Hurl) by done.
    by destruct (last_status_of _).
  - by rewrite main_unset by (by rewrite Hurl).
Qed.


Lemma state_file_access_events (w : world) :
  Forall (state_file_access (state_path w)) (main_events str_lower w).
Proof.
  apply Forall_main_events; try done.
  - intros b. simpl. eauto.
  - intros port. unfold email_calls. by repeat constructor.
Qed.

(** X15.  A run touches the state file and nothing else.  In every
    world, [main] leaves the environment and every path other than the
    state file ([STATE_FILE], [state.json] by default) as they were, and
    every read or write it makes is on that path, a write being the JSON
    text of a state. *)
Theorem main_touches_state_file_only (w : world) :
  environ (main str_lower w).2 = environ w
  ∧ (∀ path, path ≠ state_path w →
       files (main str_lower w).2 !! path = files w !! path)
  ∧ ∃ evs,
      trace (main str_lower w).2 = trace w ++ evs
      ∧ Forall (state_file_access (state_path w)) evs.
Proof.
  split; [|split].
  - destruct (environ w !! lit "EVENT_URL") as [[|c u]|] eqn:Hurl.
    + by rewrite main_unset by (by rewrite Hurl).
    + rewrite (main_run _ _ _ Hurl) by done. by destruct (last_status_of _).
    + by rewrite main_unset by (by rewrite Hurl).
  - intros path Hne.
    destruct (environ w !! lit "EVENT_URL") as [[|c u]|] eqn:Hurl.
    + by rewrite main_unset by (by rewrite Hurl).
    + rewrite (main_run _ _ _ Hurl) by done.
      destruct (last_status_of _) as [e|last]; [done|]. simpl.
      unfold files_after. repeat case_match; try done.
      by rewrite lookup_insert_ne.
    + by rewrite main_unset by (by rewrite Hurl).
  - exists (main_events str_lower w). split; [apply main_trace|].
    apply state_file_access_events.
Qed.

End WholeRuns.

Section RunBounds.

Variable str_lower : str → str.

Lemma count_calls_load w path :
  count is_get (load_events w path) = 0
  ∧ count is_post (load_events w path) = 0
  ∧ count is_smtp (load_events w path) = 0
  ∧ count is_read (load_events w path) ≤ 1.
Proof. unfold load_events, count. repeat case_match; simpl; lia. Qed.

Lemma count_calls_check w url :
  count is_get (check_events w url) = 1
  ∧ count is_post (check_events w url) = 0
  ∧ count is_smtp (check_events w url) = 0
  ∧ count is_read (check_events w url) = 0.
Proof. unfold check_events, count. repeat case_match; simpl; lia. Qed.

Lemma count_calls_email w subject body :
  count is_get (email_events w subject body) = 0
  ∧ count is_post (email_events w subject body) = 0
  ∧ count is_smtp (email_events w subject body) ≤ 5
  ∧ count is_read (email_events w subject body) = 0.
Proof.
  unfold email_events, email_calls, count. simpl.
  repeat case_match; simpl; lia.
Qed.

Lemma count_calls_sms w body :
  count is_get (sms_events w body) = 0
  ∧ count is_post (sms_events w body) ≤ 1
  ∧ count is_smtp (sms_events w body) = 0
  ∧ count is_read (sms_events w body) = 0.
Proof. unfold sms_events, count. repeat case_match; simpl; lia. Qed.

Lemma count_calls_save w path st :
  count is_get (save_events w path st) = 0
  ∧ count is_post (save_events w path st) = 0
  ∧ count is_smtp (save_events w path st) = 0
  ∧ count is_read (save_events w path st) = 0.
Proof. unfold save_events, count. repeat case_match; simpl; lia. Qed.

(** X16.  The resources of a run.  In every world a run of [main] makes
    at most one request to the event page, at most one read and one
    write of the state file, at most one call of each notification
    channel, at most one POST to the SMS gateway and at most the five
    calls of one SMTP session. *)
Theorem main_resource_bounds (w : world) :
  ∃ evs,
    trace (main str_lower w).2 = trace w ++ evs
    ∧ count is_get evs ≤ 1 ∧ count is_read evs ≤ 1 ∧ count is_write evs ≤ 1
    ∧ count is_send_email evs ≤ 1 ∧ count is_send_sms evs ≤ 1
    ∧ count is_post evs ≤ 1 ∧ count is_smtp evs ≤ 5.
Proof.
  exists (main_events str_lower w). split; [apply main_trace|].
  unfold main_events.
  destruct (environ w !! lit "EVENT_URL") as [[|c u]|];
    [unfold count; simpl; lia| |unfold count; simpl; lia].
  pose proof (count_calls_load w (state_path w)) as (Lg & Lp & Ls & Lr).
  pose proof (count_load_events w (state_path w)) as (Le & Lm & Lw).
  destruct (last_status_of _) as [e|last]; [lia|].
  set (url := c :: u).
  pose proof (count_calls_check w url) as (Cg & Cp & Cs & Cr).
  pose proof (count_check_events w url) as (Ce & Cm & Cw).
  pose proof (count_calls_email w alert_subject (alert_body url))
    as (Eg & Ep & Es & Er).
  pose proof (count_email_events w alert_subject (alert_body url))
    as (Ee & Em & Ew).
  pose proof (count_calls_sms w (alert_body url)) as (Sg & Sp & Ss & Sr).
  pose proof (count_sms_events w (alert_body url)) as (Se & Sm & Sw).
  pose proof (count_calls_save w (state_path w)
                (State (available str_lower w url))) as (Vg & Vp & Vs & Vr).
  pose proof (count_save_events w (state_path w)
                (State (available str_lower w url))) as (Ve & Vm & Vw).
  unfold prelude, decision_events.
  destruct (rising_edge _ _ _ _); [destruct (email_result w)|];
    rewrite ?count_app, ?app_nil_r;
    repeat match goal with
           | |- context [count ?k [EvLog ?m]] =>
               change (count k [EvLog m]) with 0
           | |- context [count ?k []] => change (count k []) with 0
           end;
    lia.
Qed.

End RunBounds.

Section LaterRuns.

Variable str_lower : str → str.

(** X17.  A state file that cannot be read, or whose text is not JSON,
    does not stop the run and counts as no record: after the read and
    the log line of the failure, [main] returns and does exactly what it
    does without the file, so tickets on the page are notified. *)
Theorem unreadable_state_like_absent (w : world) (url : str) (e : exn) :
  environ w !! lit "EVENT_URL" = Some url → url ≠ [] →
  files w !! state_path w = Some (FUnreadable e)
  ∨ (∃ t, files w !! state_path w = Some (FText t) ∧ json_loads t = None
          ∧ e = JSONDecodeError) →
  let w0 := set_files (delete (state_path w) (files w)) w in
  (main str_lower w).1 = (main str_lower w0).1
  ∧ ∃ evs,
      trace (main str_lower w).2
      = trace w ++ EvRead (state_path w) :: EvLog (LogReadFailed e) :: evs
      ∧ trace (main str_lower w0).2 = trace w ++ evs
      ∧ count is_send_email evs
        = (if available str_lower w url then 1 else 0).
Proof.
  intros Hurl Hne Hfile w0.
  assert (Hurl0 : environ w0 !! lit "EVENT_URL" = Some url) by done.
  rewrite (main_run _ _ _ Hurl Hne), (main_run _ _ _ Hurl0 Hne).
  unfold prelude. change (state_path w0) with (state_path w).
  destruct (stored_missing w0 (state_path w)) as [-> Hev0];
    [apply lookup_delete_eq|].
  assert (Hst : stored w (state_path w) = PNone
                ∧ load_events w (state_path w)
                  = [EvRead (state_path w); EvLog (LogReadFailed e)]).
  { unfold stored, load_events.
    by destruct Hfile as [->|(t & -> & -> & ->)]. }
  destruct Hst as [-> Hev]. rewrite Hev, Hev0.
  change (last_status_of PNone) with (inr (A:=exn) PNone).
  split; [done|].
  exists (check_events w url
          ++ [EvLog (LogTicketsAvailable (available str_lower w url))]
          ++ decision_events str_lower w url PNone).
  change (decision_events str_lower w0) with (decision_events str_lower w).
  change (available str_lower w0) with (available str_lower w).
  change (check_events w0) with (check_events w).
  split; [simpl trace; by rewrite <- !app_assoc|].
  split; [simpl trace; by rewrite <- !app_assoc|].
  rewrite !count_app.
  destruct (count_check_events w url) as (-> & _ & _).
  destruct (count_decision_events str_lower w url PNone) as (-> & _ & _).
  unfold rising_edge. simpl. by rewrite andb_true_r.
Qed.





End LaterRuns.

Section AlertContent.

Variable str_lower : str → str.

Lemma alert_for_events (w : world) :
  Forall (alert_for (default [] (environ w !! lit "EVENT_URL")))
         (main_events str_lower w).
Proof.
  apply Forall_main_events; try done.
  intros port. unfold email_calls. by repeat constructor.
Qed.

(** X20.  What a notification says.  Every call of a channel that a run
    makes carries the alert for the configured page: the email has the
    subject [Twickets Alert: Tickets Available!], the email and the SMS
    have the same body, the message handed to the SMTP server and the
    text posted to the gateway are that subject and body unchanged, and
    the body contains the event URL. *)
Theorem notifications_carry_alert (w : world) :
  ∃ evs,
    trace (main str_lower w).2 = trace w ++ evs
    ∧ Forall (alert_for (default [] (environ w !! lit "EVENT_URL"))) evs
    ∧ occurs (default [] (environ w !! lit "EVENT_URL"))
             (alert_body (default [] (environ w !! lit "EVENT_URL"))).
Proof.
  exists (main_events str_lower w).
  split; [apply main_trace|]. split; [apply alert_for_events|].
  exists (lit "Tickets are now available for your event!" ++ [10%N]
          ++ lit "Event URL: "),
         ([10%N; 10%N]
          ++ lit "Please visit the page quickly to purchase them." ++ [10%N]
          ++ lit "This is an automated notification.").
  unfold alert_body. by rewrite <- !app_assoc.
Qed.

End AlertContent.

(** ** The further theorems at work on the example worlds *)

Lemma short_page_available_witness :
  check_tickets ascii_lower (lit event_url) empty_page_world
  = (Ok true, after empty_page_world [EvGet (lit event_url)]).
Proof.
  apply (short_page_available ascii_lower empty_page_world (lit event_url) []).
  - vm_compute; reflexivity.
  - simpl. lia.
Defined.

Lemma unreadable_state_like_absent_witness :
  let w0 := set_files (delete (state_path unreadable_state_world)
                         (files unreadable_state_world))
              unreadable_state_world in
  (main ascii_lower unreadable_state_world).1 = (main ascii_lower w0).1
  ∧ ∃ evs,
      trace (main ascii_lower unreadable_state_world).2
      = trace unreadable_state_world
        ++ EvRead (state_path unreadable_state_world)
           :: EvLog (LogReadFailed (LibraryError (lit "PermissionError")))
           :: evs
      ∧ trace (main ascii_lower w0).2 = trace unreadable_state_world ++ evs
      ∧ count is_send_email evs
        = (if available ascii_lower unreadable_state_world (lit event_url)
           then 1 else 0).
Proof.
  apply (unreadable_state_like_absent ascii_lower unreadable_state_world
           (lit event_url) (LibraryError (lit "PermissionError"))).
  - vm_compute; reflexivity.
  - discriminate.
  - left. vm_compute; reflexivity.
Defined.


